(** * Off-policy G(PO)MDP gradient estimator (potion/estimation/offpolicy_gradients.py)

    A shallow embedding of [_shallow_off_gpomdp_estimator], of the helpers
    [unpack] and [discount] of potion/common/misc_utils.py, and of the torch
    operations the estimator is built from.

    Numbers.  Tensor entries are real numbers and arithmetic on them is exact:
    the rounding of the float32 tensors, and overflow and underflow of their
    sums and products, are not modelled.
    The one place where the source expects and handles a non-real outcome is the
    division that builds the Peters baseline; from that division on, entries
    are [fvalue]s, reals extended with the infinities and not-a-number, with
    the IEEE rules for the operations the estimator applies to them.
    The range of float32 matters at the exponentials of lines 61-62 and 70,
    which underflow to 0 and overflow to infinity: [exp32] gives the float32
    exponential as far as its range goes, and a statement whose truth depends
    on an exponential staying in range says so in terms of [exp32].

    Tensors.  A tensor is a list along its leading axis: N x H is
    [list (list R)], N x H x m is [list (list (list R))].

    Effects.  The only mutable object is the policy's flat parameter vector.
    The estimator is a computation in a state-and-exception monad whose state
    is that vector; a raised exception keeps the state reached at the raise,
    as a Python exception does. *)

From Stdlib Require Import Reals Lra List String Ascii Bool Arith Lia Permutation.
Import ListNotations.
Open Scope R_scope.
Open Scope string_scope.
Open Scope list_scope.

Set Implicit Arguments.

(** ** Exceptions *)

Inductive exn : Type :=
| ValueError
| RuntimeError
| NotImplementedError.

Inductive exc (T : Type) : Type :=
| Ok (v : T)
| Raise (e : exn).

Arguments Ok {T} v.
Arguments Raise {T} e.

Definition exc_bind {T U : Type} (c : exc T) (k : T -> exc U) : exc U :=
  match c with
  | Ok v => k v
  | Raise e => Raise e
  end.

Notation "x <-! c ;; k" := (exc_bind c (fun x => k))
  (at level 61, c at next level, right associativity).

Fixpoint exc_map {T U : Type} (f : T -> exc U) (l : list T) : exc (list U) :=
  match l with
  | [] => Ok []
  | x :: xs =>
      y <-! f x ;;
      ys <-! exc_map f xs ;;
      Ok (y :: ys)
  end.

(** ** Tensor entries after a division *)

Inductive fvalue : Type :=
| Fin (r : R)
| Inf (positive : bool)
| NaN.

Definition fadd (a b : fvalue) : fvalue :=
  match a, b with
  | Fin x, Fin y => Fin (x + y)
  | Fin _, Inf s => Inf s
  | Inf s, Fin _ => Inf s
  | Inf s, Inf s' => if Bool.eqb s s' then Inf s else NaN
  | _, _ => NaN
  end.

Definition fsub (a b : fvalue) : fvalue :=
  match a, b with
  | Fin x, Fin y => Fin (x - y)
  | Fin _, Inf s => Inf (negb s)
  | Inf s, Fin _ => Inf s
  | Inf s, Inf s' => if Bool.eqb s s' then NaN else Inf s
  | _, _ => NaN
  end.

(** The sign rule for a finite, possibly zero, factor times an infinity. *)
Definition scale_inf (x : R) (s : bool) : fvalue :=
  if Req_EM_T x 0 then NaN
  else if Rlt_dec 0 x then Inf s else Inf (negb s).

Definition fmul (a b : fvalue) : fvalue :=
  match a, b with
  | Fin x, Fin y => Fin (x * y)
  | Fin x, Inf s => scale_inf x s
  | Inf s, Fin y => scale_inf y s
  | Inf s, Inf s' => Inf (Bool.eqb s s')
  | _, _ => NaN
  end.

Definition fdiv (a b : fvalue) : fvalue :=
  match a, b with
  | Fin x, Fin y =>
      if Req_EM_T y 0 then
        if Req_EM_T x 0 then NaN
        else if Rlt_dec 0 x then Inf true else Inf false
      else Fin (x / y)
  | Fin _, Inf _ => Fin 0
  | Inf s, Fin y => if Rlt_dec y 0 then Inf (negb s) else Inf s
  | _, _ => NaN
  end.

(** [x != x] of torch: true exactly at not-a-number. *)
Definition is_nan (v : fvalue) : bool :=
  match v with
  | NaN => true
  | _ => false
  end.

Definition is_fin (v : fvalue) : Prop :=
  match v with
  | Fin _ => True
  | _ => False
  end.

(** [torch.exp] on a float32 entry, as far as its range goes.  The result is
    0 where the exponential is at most 2^-150, half the least positive
    float32 (about x <= -103.98), and infinite where it is at least
    2^128 - 2^103, half a unit in the last place above the greatest float32
    (about x >= 88.73).  In between it is the exponential; its rounding is
    not modelled. *)
Definition exp32 (x : R) : fvalue :=
  if Rle_dec (Rtrigo_def.exp x) (/ 2 ^ 150) then Fin 0
  else if Rle_dec (2 ^ 128 - 2 ^ 103) (Rtrigo_def.exp x) then Inf true
  else Fin (Rtrigo_def.exp x).

(** ** Torch operations on list tensors *)

Module Torch.

Fixpoint map2 {T U V : Type} (f : T -> U -> V) (a : list T) (b : list U) : list V :=
  match a, b with
  | x :: a', y :: b' => f x y :: map2 f a' b'
  | _, _ => []
  end.

(** Vectors of length m and H x m matrices, added entry by entry. *)
Definition vadd (a b : list R) : list R := map2 Rplus a b.
Definition madd (a b : list (list R)) : list (list R) := map2 vadd a b.
Definition fvadd (a b : list fvalue) : list fvalue := map2 fadd a b.

(** [torch.cumsum(x, 1)] on N x H. *)
Fixpoint cumsum_from (acc : R) (l : list R) : list R :=
  match l with
  | [] => []
  | x :: xs => (acc + x) :: cumsum_from (acc + x) xs
  end.

Definition cumsum_row (l : list R) : list R :=
  match l with
  | [] => []
  | x :: xs => x :: cumsum_from x xs
  end.

Definition cumsum_1 (x : list (list R)) : list (list R) := map cumsum_row x.

(** [torch.cumsum(x, 1)] on N x H x m: running sums of the m-vectors. *)
Fixpoint vcumsum_from (acc : list R) (l : list (list R)) : list (list R) :=
  match l with
  | [] => []
  | v :: vs => vadd acc v :: vcumsum_from (vadd acc v) vs
  end.

Definition vcumsum_row (l : list (list R)) : list (list R) :=
  match l with
  | [] => []
  | v :: vs => v :: vcumsum_from v vs
  end.

Definition cumsum_1_3d (x : list (list (list R))) : list (list (list R)) :=
  map vcumsum_row x.

(** [torch.sum(x, 0)] on N x H x m and on N x H, for N >= 1 (the estimator
    never reaches a sum with N = 0: [unpack] has raised before). *)
Fixpoint sum_0_3d (x : list (list (list R))) : list (list R) :=
  match x with
  | [] => []
  | [a] => a
  | a :: rest => madd a (sum_0_3d rest)
  end.

Fixpoint sum_0 (x : list (list R)) : list R :=
  match x with
  | [] => []
  | [a] => a
  | a :: rest => vadd a (sum_0 rest)
  end.

(** [torch.sum(x, 1)] on N x H x m, for H >= 1, and [torch.mean(x, 0)] on
    N x m, on entries that went through the baseline division. *)
Fixpoint fvsum (l : list (list fvalue)) : list fvalue :=
  match l with
  | [] => []
  | [v] => v
  | v :: vs => fvadd v (fvsum vs)
  end.

Definition fsum_1 (x : list (list (list fvalue))) : list (list fvalue) :=
  map fvsum x.

Definition fmean_0 (x : list (list fvalue)) : list fvalue :=
  map (fun v => fdiv v (Fin (INR (List.length x)))) (fvsum x).

(** [torch.max(x, dim=1, keepdim=True)]: raises on an empty time axis. *)
Fixpoint max_from (acc : R) (l : list R) : R :=
  match l with
  | [] => acc
  | x :: xs => max_from (Rmax acc x) xs
  end.

Definition max_row (l : list R) : exc R :=
  match l with
  | [] => Raise RuntimeError
  | x :: xs => Ok (max_from x xs)
  end.

Definition max_1 (x : list (list R)) : exc (list R) := exc_map max_row x.

(** Entry-wise operations, with the broadcasts the estimator uses. *)
Definition sub (a b : list (list R)) : list (list R) := map2 (map2 Rminus) a b.
Definition mul (a b : list (list R)) : list (list R) := map2 (map2 Rmult) a b.
Definition exp (a : list (list R)) : list (list R) := map (map Rtrigo_def.exp) a.
Definition scale (c : R) (a : list (list R)) : list (list R) := map (map (Rmult c)) a.
Definition square (a : list (list (list R))) : list (list (list R)) :=
  map (map (map (fun g => g ^ 2))) a.

(** N x H minus N x 1. *)
Definition sub_keepdim (a : list (list R)) (s : list R) : list (list R) :=
  map2 (fun row c => map (fun v => v - c) row) a s.

(** H x m divided by H x m. *)
Definition div (a b : list (list R)) : list (list fvalue) :=
  map2 (map2 (fun p q => fdiv (Fin p) (Fin q))) a b.

Definition zeros_like (a : list (list R)) : list (list fvalue) :=
  map (map (fun _ => Fin 0)) a.

(** [b[b != b] = 0]. *)
Definition scrub_nan (b : list (list fvalue)) : list (list fvalue) :=
  map (map (fun v => if is_nan v then Fin 0 else v)) b.

(** [r.unsqueeze(2) - b.unsqueeze(0)]: N x H x 1 minus 1 x H x m. *)
Definition sub_unsqueeze (r : list (list R)) (b : list (list fvalue))
  : list (list (list fvalue)) :=
  map (fun row => map2 (fun c bt => map (fun v => fsub (Fin c) v) bt) row b) r.

(** [G * values] on N x H x m. *)
Definition fmul_3d (g : list (list (list R))) (v : list (list (list fvalue)))
  : list (list (list fvalue)) :=
  map2 (map2 (map2 (fun x y => fmul (Fin x) y))) g v.

End Torch.

(** Modelled from the spec: [tensormat] of potion/common/torch_utils.py is not
    among the sources.  The spec uses it as the product of an N x H x m tensor
    with an N x H tensor, entry (n,t,k) times entry (n,t) (steps 4 and 9 of the
    estimator, and the two sums of the Peters baseline). *)
Definition tensormat (a : list (list (list R))) (b : list (list R))
  : list (list (list R)) :=
  Torch.map2 (Torch.map2 (fun v c => map (fun x => x * c) v)) a b.

(** The same product where the left factor went through the baseline division. *)
Definition ftensormat (a : list (list (list fvalue))) (b : list (list R))
  : list (list (list fvalue)) :=
  Torch.map2 (Torch.map2 (fun v c => map (fun x => fmul x (Fin c)) v)) a b.

(** ** The policy and its parameter vector *)

(** The state of a run: the flat parameter vector held by the policy object. *)
Definition M (T : Type) : Type := list R -> exc T * list R.

Definition ret {T : Type} (v : T) : M T := fun theta => (Ok v, theta).

Definition bind {T U : Type} (c : M T) (k : T -> M U) : M U :=
  fun theta =>
    match c theta with
    | (Ok v, theta') => k v theta'
    | (Raise e, theta') => (Raise e, theta')
    end.

Definition raise {T : Type} (e : exn) : M T := fun theta => (Raise e, theta).

Definition lift {T : Type} (c : exc T) : M T := fun theta => (c, theta).

Notation "x <- c ;; k" := (bind c (fun x => k))
  (at level 61, c at next level, right associativity).

Section Estimator.

(** Rows of the state and action tensors, and entries of a trailing field. *)
Variables state action extra : Type.

(** Modelled from the spec: the policy classes (potion/actors) are not among
    the sources.  The spec gives the interface: [score] and [log_pdf] are
    deterministic, pure functions of state and action conditioned on the
    current parameter vector, [score] returns a tensor N x H x paramDim and
    [log_pdf] a tensor N x H; either may raise. *)
Record Policy : Type := {
  param_dim : nat;
  score_step : list R -> state -> action -> exc (list R);
  log_pdf_step : list R -> state -> action -> exc R
}.

Definition over_steps {T : Type} (f : state -> action -> exc T)
  (states : list (list state)) (actions : list (list action)) : exc (list (list T)) :=
  exc_map (fun sa => exc_map (fun p => f (fst p) (snd p)) (combine (fst sa) (snd sa)))
          (combine states actions).

(** The score of one step must have paramDim components to enter the N x H x
    paramDim tensor. *)
Definition score_checked (policy : Policy) (theta : list R) (s : state) (a : action)
  : exc (list R) :=
  v <-! score_step policy theta s a ;;
  if Nat.eqb (List.length v) (param_dim policy) then Ok v else Raise RuntimeError.

Definition score (policy : Policy) (states : list (list state)) (actions : list (list action))
  : M (list (list (list R))) :=
  fun theta => (over_steps (score_checked policy theta) states actions, theta).

Definition log_pdf (policy : Policy) (states : list (list state)) (actions : list (list action))
  : M (list (list R)) :=
  fun theta => (over_steps (log_pdf_step policy theta) states actions, theta).

Definition get_flat : M (list R) := fun theta => (Ok theta, theta).

Definition set_from_flat (params : list R) : M unit := fun _ => (Ok tt, params).

(** ** potion/common/misc_utils.py *)

(** A trajectory tuple: the four time series and the trailing fields after
    them (none for a four-field tuple, one for a five-field tuple). *)
Record trajectory : Type := {
  states : list state;
  actions : list action;
  rewards : list R;
  mask : list R;
  extras : list (list extra)
}.

Definition arity (tr : trajectory) : nat := 4 + List.length (extras tr).

(** The number of tuples [zip( *batch )] yields: the least arity. *)
Definition zip_arity (batch : list trajectory) : nat :=
  match batch with
  | [] => 0%nat
  | tr :: rest => fold_right Nat.min (arity tr) (map arity rest)
  end.

Fixpoint same_length {T : Type} (n : nat) (xs : list (list T)) : bool :=
  match xs with
  | [] => true
  | x :: rest => Nat.eqb (List.length x) n && same_length n rest
  end.

(** [torch.stack]: the tensors must agree in shape. *)
Definition stack {T : Type} (xs : list (list T)) : exc (list (list T)) :=
  match xs with
  | [] => Raise RuntimeError
  | x :: rest => if same_length (List.length x) rest then Ok xs else Raise RuntimeError
  end.

Record stacked : Type := {
  st_states : list (list state);
  st_actions : list (list action);
  st_rewards : list (list R);
  st_mask : list (list R)
}.

(** [states, actions, rewards, mask, _ = unpack(batch)].  [unpack] is the lazy
    generator [(torch.stack(x) for x in zip( *batch ))]; the assignment draws
    five stacked fields from it, then asks for a sixth to see it exhausted. *)
Definition unpack (batch : list trajectory) : exc stacked :=
  match batch with
  | [] => Raise ValueError
  | _ :: _ =>
      st <-! stack (map states batch) ;;
      ac <-! stack (map actions batch) ;;
      rw <-! stack (map rewards batch) ;;
      mk <-! stack (map mask batch) ;;
      if Nat.ltb (zip_arity batch) 5 then Raise ValueError
      else
        _ <-! stack (map (fun tr => nth 0 (extras tr) []) batch) ;;
        if Nat.ltb 5 (zip_arity batch) then
          _ <-! stack (map (fun tr => nth 1 (extras tr) []) batch) ;;
          Raise ValueError
        else
          Ok {| st_states := st; st_actions := ac; st_rewards := rw; st_mask := mk |}
  end.

(** Modelled from the spec: shape disagreements between the stacked fields
    surface in torch as errors of the first operation that combines them; the
    spec has them as ShapeMismatch.  Here the time axes are compared once,
    before the first policy evaluation.  Torch's broadcasting of a time axis of
    length one is not modelled: a batch whose fields disagree in length is
    rejected. *)
Definition horizon {T : Type} (x : list (list T)) : nat := List.length (hd [] x).

Definition check_shapes (b : stacked) : exc unit :=
  if Nat.eqb (horizon (st_actions b)) (horizon (st_states b))
     && Nat.eqb (horizon (st_rewards b)) (horizon (st_states b))
     && Nat.eqb (horizon (st_mask b)) (horizon (st_states b))
  then Ok tt else Raise RuntimeError.

(** [discount]: [rewards * gamma ** t], t the position on the time axis. *)
Fixpoint discount_from (t : nat) (rewards : list R) (gamma : R) : list R :=
  match rewards with
  | [] => []
  | r :: rs => r * gamma ^ t :: discount_from (S t) rs gamma
  end.

(** one trajectory ([rewards.dim() < 2]) *)
Definition discount_1d (rewards : list R) (gamma : R) : list R :=
  discount_from 0 rewards gamma.

(** a batch, N x H *)
Definition discount (rewards : list (list R)) (gamma : R) : list (list R) :=
  map (fun row => discount_from 0 row gamma) rewards.

(** ** potion/estimation/offpolicy_gradients.py *)

(** [n_k[n_k==0.] = 1.]: an in-place write into the tensor that [torch.sum]
    has just allocated for [n_k], which no other local shares. *)
Definition fill_zeros (n_k : list R) : list R :=
  map (fun c => if Req_EM_T c 0 then 1 else c) n_k.

(** Lines 61-62: the two sums of the Peters baseline and their quotient. *)
Definition peters_weights (log_iws : list (list R)) (stabilizers : list R)
  : list (list R) :=
  Torch.exp (Torch.scale 2 (Torch.sub_keepdim log_iws stabilizers)).

Definition peters_numerator (G : list (list (list R))) (disc_rewards log_iws : list (list R))
  (stabilizers : list R) : list (list R) :=
  Torch.sum_0_3d
    (tensormat (Torch.square G)
               (Torch.mul disc_rewards (peters_weights log_iws stabilizers))).

Definition peters_denominator (G : list (list (list R))) (log_iws : list (list R))
  (stabilizers : list R) : list (list R) :=
  Torch.sum_0_3d (tensormat (Torch.square G) (peters_weights log_iws stabilizers)).

Definition peters_baseline (G : list (list (list R))) (disc_rewards log_iws : list (list R))
  (stabilizers : list R) : list (list fvalue) :=
  Torch.div (peters_numerator G disc_rewards log_iws stabilizers)
            (peters_denominator G log_iws stabilizers).

(** Line 70. *)
Definition combine_samples (G : list (list (list R))) (values : list (list (list fvalue)))
  (mask log_iws : list (list R)) : list (list fvalue) :=
  Torch.fsum_1 (ftensormat (Torch.fmul_3d G values) (Torch.mul mask (Torch.exp log_iws))).

(** The local variables of the estimator when it reaches its final [if]. *)
Record locals : Type := {
  l_mask : list (list R);
  l_disc_rewards : list (list R);
  l_scores : list (list (list R));
  l_G : list (list (list R));
  l_behavioral_logps : list (list R);
  l_target_logps : list (list R);
  l_log_iws : list (list R);
  l_stabilizers : list R;
  l_baseline : list (list fvalue);
  l_values : list (list (list fvalue));
  l_samples : list (list fvalue)
}.

(** What the estimator returns: N x m for 'samples', m otherwise. *)
Inductive estimate : Type :=
| Samples (per_trajectory : list (list fvalue))
| Mean (mean : list fvalue).

(** Lines 45-70 of [_shallow_off_gpomdp_estimator]. *)
Definition estimator_body (batch : list trajectory) (disc : R) (policy : Policy)
  (target_params : list R) (baselinekind : string) : M locals :=
  b <- lift (unpack batch) ;;
  _ <- lift (check_shapes b) ;;
  let states := st_states b in
  let actions := st_actions b in
  let rewards := st_rewards b in
  let mask := st_mask b in
  let disc_rewards := discount rewards disc in
  scores <- score policy states actions ;;
  let G := Torch.cumsum_1_3d (tensormat scores mask) in
  let n_k := Torch.sum_0 mask in
  let n_k := fill_zeros n_k in
  behavioral_logps <- log_pdf policy states actions ;;
  behavioral_params <- get_flat ;;
  _ <- set_from_flat target_params ;;
  target_logps <- log_pdf policy states actions ;;
  _ <- set_from_flat behavioral_params ;;
  let log_iws := Torch.cumsum_1 (Torch.sub target_logps behavioral_logps) in
  stabilizers <- lift (Torch.max_1 log_iws) ;;
  baseline <-
    (if baselinekind =? "peters" then
       ret (peters_baseline G disc_rewards log_iws stabilizers)
     else if baselinekind =? "zero" then
       ret (Torch.zeros_like (hd [] G))
     else raise NotImplementedError) ;;
  let baseline := Torch.scrub_nan baseline in
  let values := Torch.sub_unsqueeze disc_rewards baseline in
  let _samples := combine_samples G values mask log_iws in
  ret {| l_mask := mask;
         l_disc_rewards := disc_rewards;
         l_scores := scores;
         l_G := G;
         l_behavioral_logps := behavioral_logps;
         l_target_logps := target_logps;
         l_log_iws := log_iws;
         l_stabilizers := stabilizers;
         l_baseline := baseline;
         l_values := values;
         l_samples := _samples |}.

Definition _shallow_off_gpomdp_estimator (batch : list trajectory) (disc : R)
  (policy : Policy) (target_params : list R) (baselinekind result : string)
  : M estimate :=
  l <- estimator_body batch disc policy target_params baselinekind ;;
  if result =? "samples" then ret (Samples (l_samples l))
  else ret (Mean (Torch.fmean_0 (l_samples l))).

(** The estimator with lines 50-51 (the computation of [n_k]) left out. *)
Definition estimator_body_without_n_k (batch : list trajectory) (disc : R)
  (policy : Policy) (target_params : list R) (baselinekind : string) : M locals :=
  b <- lift (unpack batch) ;;
  _ <- lift (check_shapes b) ;;
  let states := st_states b in
  let actions := st_actions b in
  let rewards := st_rewards b in
  let mask := st_mask b in
  let disc_rewards := discount rewards disc in
  scores <- score policy states actions ;;
  let G := Torch.cumsum_1_3d (tensormat scores mask) in
  behavioral_logps <- log_pdf policy states actions ;;
  behavioral_params <- get_flat ;;
  _ <- set_from_flat target_params ;;
  target_logps <- log_pdf policy states actions ;;
  _ <- set_from_flat behavioral_params ;;
  let log_iws := Torch.cumsum_1 (Torch.sub target_logps behavioral_logps) in
  stabilizers <- lift (Torch.max_1 log_iws) ;;
  baseline <-
    (if baselinekind =? "peters" then
       ret (peters_baseline G disc_rewards log_iws stabilizers)
     else if baselinekind =? "zero" then
       ret (Torch.zeros_like (hd [] G))
     else raise NotImplementedError) ;;
  let baseline := Torch.scrub_nan baseline in
  let values := Torch.sub_unsqueeze disc_rewards baseline in
  let _samples := combine_samples G values mask log_iws in
  ret {| l_mask := mask;
         l_disc_rewards := disc_rewards;
         l_scores := scores;
         l_G := G;
         l_behavioral_logps := behavioral_logps;
         l_target_logps := target_logps;
         l_log_iws := log_iws;
         l_stabilizers := stabilizers;
         l_baseline := baseline;
         l_values := values;
         l_samples := _samples |}.

Definition _shallow_off_gpomdp_estimator_without_n_k (batch : list trajectory)
  (disc : R) (policy : Policy) (target_params : list R)
  (baselinekind result : string) : M estimate :=
  l <- estimator_body_without_n_k batch disc policy target_params baselinekind ;;
  if result =? "samples" then ret (Samples (l_samples l))
  else ret (Mean (Torch.fmean_0 (l_samples l))).

Definition off_gpomdp_estimator (batch : list trajectory) (disc : R)
  (policy : Policy) (target_params : list R) (baselinekind result : string)
  (shallow : bool) : M estimate :=
  if shallow then
    _shallow_off_gpomdp_estimator batch disc policy target_params baselinekind result
  else raise NotImplementedError.

(** ** The on-policy counterpart *)

(** Modelled from the spec: the on-policy G(PO)MDP estimator
    (potion/estimation/gradients.py) is not among the sources.  The spec
    describes it as what the off-policy estimator reduces to when every
    importance weight is 1: steps 1-5 and 7-10 of the algorithm with the factor
    [w] dropped from both sums of the Peters baseline and [exp(log_iw)] dropped
    from the combination step. *)
Definition on_policy_baseline (G : list (list (list R))) (disc_rewards : list (list R))
  : list (list fvalue) :=
  Torch.div (Torch.sum_0_3d (tensormat (Torch.square G) disc_rewards))
            (Torch.sum_0_3d (Torch.square G)).

Definition on_policy_samples (batch : list trajectory) (disc : R) (policy : Policy)
  (baselinekind : string) : M (list (list fvalue)) :=
  b <- lift (unpack batch) ;;
  _ <- lift (check_shapes b) ;;
  let states := st_states b in
  let actions := st_actions b in
  let rewards := st_rewards b in
  let mask := st_mask b in
  let disc_rewards := discount rewards disc in
  scores <- score policy states actions ;;
  let G := Torch.cumsum_1_3d (tensormat scores mask) in
  baseline <-
    (if baselinekind =? "peters" then ret (on_policy_baseline G disc_rewards)
     else if baselinekind =? "zero" then ret (Torch.zeros_like (hd [] G))
     else raise NotImplementedError) ;;
  let baseline := Torch.scrub_nan baseline in
  let values := Torch.sub_unsqueeze disc_rewards baseline in
  ret (Torch.fsum_1 (ftensormat (Torch.fmul_3d G values) mask)).

Definition on_policy_estimator (batch : list trajectory) (disc : R) (policy : Policy)
  (baselinekind result : string) : M estimate :=
  samples <- on_policy_samples batch disc policy baselinekind ;;
  if result =? "samples" then ret (Samples samples)
  else ret (Mean (Torch.fmean_0 samples)).

(** ** Padding a batch with masked timesteps *)

(** What is appended to one trajectory: states, actions, rewards and the
    continuation of each trailing field; the mask is continued with zeros. *)
Record padding : Type := {
  pad_states : list state;
  pad_actions : list action;
  pad_rewards : list R;
  pad_extras : list (list extra)
}.

Definition append_padding (tr : trajectory) (p : padding) : trajectory :=
  {| states := states tr ++ pad_states p;
     actions := actions tr ++ pad_actions p;
     rewards := rewards tr ++ pad_rewards p;
     mask := mask tr ++ repeat 0 (List.length (pad_states p));
     extras := Torch.map2 (@app extra) (extras tr) (pad_extras p) |}.

Definition pad_batch (batch : list trajectory) (pads : list padding) : list trajectory :=
  Torch.map2 append_padding batch pads.

End Estimator.

Arguments Build_trajectory {state action extra}.
Arguments Build_padding {state action extra}.

(** ** Entries and sums over trajectories, as the spec writes them *)

Definition entry2 (x : list (list R)) (n t : nat) : R := nth t (nth n x []) 0.

Definition entry3 (x : list (list (list R))) (n t k : nat) : R :=
  nth k (nth t (nth n x []) []) 0.

Definition fentry2 (x : list (list fvalue)) (t k : nat) : option fvalue :=
  match nth_error x t with
  | Some row => nth_error row k
  | None => None
  end.

(** The sum of [f 0], ..., [f (n-1)]. *)
Fixpoint big_sum (f : nat -> R) (n : nat) : R :=
  match n with
  | O => 0
  | S k => big_sum f k + f k
  end.

(** [w[n,t] = exp(2 (log_iw[n,t] - stabilizer[n]))] *)
Definition weight (log_iw : list (list R)) (stabilizer : list R) (n t : nat) : R :=
  Rtrigo_def.exp (2 * (entry2 log_iw n t - nth n stabilizer 0)).


(** The two sums as the source has them: no mask. *)
Definition peters_num_entry (N : nat) (G : list (list (list R)))
  (r_disc log_iw : list (list R)) (stabilizer : list R) (t k : nat) : R :=
  big_sum (fun n => entry3 G n t k ^ 2 * (entry2 r_disc n t * weight log_iw stabilizer n t)) N.

Definition peters_den_entry (N : nat) (G : list (list (list R)))
  (log_iw : list (list R)) (stabilizer : list R) (t k : nat) : R :=
  big_sum (fun n => entry3 G n t k ^ 2 * weight log_iw stabilizer n t) N.

(** ** Tensors by shape and entry *)

(** [indexed N P x]: the list [x] has [N] entries and the entry at position
    [n] satisfies [P n]. *)
Definition indexed {T : Type} (N : nat) (P : nat -> T -> Prop) (x : list T) : Prop :=
  List.length x = N /\ forall n v, nth_error x n = Some v -> P n v.

(** [x] is the tensor of shape N (N x H, N x H x m) whose entries are given by [f]. *)
Definition tensor1 {T : Type} (N : nat) (f : nat -> T) (x : list T) : Prop :=
  indexed N (fun n v => v = f n) x.

Definition tensor2 {T : Type} (N H : nat) (f : nat -> nat -> T) (x : list (list T))
  : Prop :=
  indexed N (fun n => tensor1 H (f n)) x.

Definition tensor3 {T : Type} (N H m : nat) (f : nat -> nat -> nat -> T)
  (x : list (list (list T))) : Prop :=
  indexed N (fun n => tensor2 H m (f n)) x.

(** Shapes alone, for tensors whose entries are not numbers. *)
Definition shape {T : Type} (N H : nat) (x : list (list T)) : Prop :=
  indexed N (fun _ row => List.length row = H) x.

Definition shape3 {T : Type} (N H m : nat) (x : list (list (list T))) : Prop :=
  indexed N (fun _ => shape H m) x.


(** The sum of [f 0], ..., [f (n-1)] of entries that went through the
    division, associated as [Torch.fvsum] does; [n] is at least 1. *)
Fixpoint fbig_sum (f : nat -> fvalue) (n : nat) : fvalue :=
  match n with
  | O => Fin 0
  | S O => f O
  | S k => fadd (f O) (fbig_sum (fun j => f (S j)) k)
  end.

(** Steps 7-10 of the algorithm as formulas over the entries, with the
    baseline quotient as the source computes it (no mask) and a vanishing
    denominator giving the entry 0. *)
Definition baseline_entry (baselinekind : string) (N : nat) (G : list (list (list R)))
  (r_disc log_iw : list (list R)) (stabilizer : list R) (t k : nat) : R :=
  if baselinekind =? "peters" then
    if Req_EM_T (peters_den_entry N G log_iw stabilizer t k) 0 then 0
    else peters_num_entry N G r_disc log_iw stabilizer t k
         / peters_den_entry N G log_iw stabilizer t k
  else 0.

Definition sample_entry (baselinekind : string) (N H : nat) (mask : list (list R))
  (G : list (list (list R))) (r_disc log_iw : list (list R)) (stabilizer : list R)
  (n k : nat) : R :=
  big_sum (fun t => entry3 G n t k
                    * (entry2 r_disc n t
                       - baseline_entry baselinekind N G r_disc log_iw stabilizer t k)
                    * (entry2 mask n t * Rtrigo_def.exp (entry2 log_iw n t))) H.


(** ** Concrete policies and batches *)

Module Examples.

(** States and actions are reals; the score is the action and the log-density
    is the first parameter times the state, so a batch fixes both tensors. *)
Definition linear_policy : Policy R R :=
  {| param_dim := 1;
     score_step := fun _ _ a => Ok [a];
     log_pdf_step := fun theta s _ => Ok (hd 0 theta * s) |}.

(** The same with a log-density that does not vanish at the zero state: the
    first parameter times (1 + state). *)
Definition offset_policy : Policy R R :=
  {| param_dim := 1;
     score_step := fun _ _ a => Ok [a];
     log_pdf_step := fun theta s _ => Ok (hd 0 theta * (1 + s)) |}.


(** N=1, H=2, rewards [1,1], mask [1,1], scores [[1],[1]]. *)
Definition scenario : list (trajectory R R R) :=
  [ Build_trajectory [0; 0] [1; 1] [1; 1] [1; 1] [[0; 0]] ].

(** The same trajectory as a four-field tuple. *)
Definition scenario_four_fields : list (trajectory R R R) :=
  [ Build_trajectory [0; 0] [1; 1] [1; 1] [1; 1] [] ].

(** The same trajectory with another trailing field. *)
Definition scenario_other_extra : list (trajectory R R R) :=
  [ Build_trajectory [0; 0] [1; 1] [1; 1] [1; 1] [[7; 8]] ].

(** Two trajectories, the first one valid for one step only. *)
Definition ragged_batch : list (trajectory R R R) :=
  [ Build_trajectory [0; 0] [1; 0] [1; 0] [1; 0] [[0; 0]];
    Build_trajectory [0; 0] [1; 1] [0; 1] [1; 1] [[0; 0]] ].


(** Two full trajectories whose states differ at the second step. *)
Definition short_batch : list (trajectory R R R) :=
  [ Build_trajectory [-1; -2] [1; 0] [1; 0] [1; 1] [[0; 0]];
    Build_trajectory [-1; -1] [2; 0] [0; 0] [1; 1] [[0; 0]] ].

(** One masked step of zeros for each: state 0, action 0, reward 0. *)
Definition one_step : list (padding R R R) :=
  [ Build_padding [0] [0] [0] [[0]]; Build_padding [0] [0] [0] [[0]] ].

End Examples.

(** * The rest of the two modules *)

(** [torch.sum] of a 1-D tensor. *)
Definition sum_all (x : list R) : R := fold_right Rplus 0 x.

(** [torch.mean(torch.tensor(xs))]: not-a-number on the empty list. *)
Definition mean_all (x : list R) : fvalue :=
  fdiv (Fin (sum_all x)) (Fin (INR (List.length x))).

Section Callers.

Variables state action extra : Type.

(** A call of [off_gpomdp_estimator] by keyword: an argument left out takes
    the default of the signature, [baselinekind='avg'], [result='mean'],
    [shallow=False]. *)
Definition off_gpomdp_estimator_kw (batch : list (trajectory state action extra))
  (disc : R) (policy : Policy state action) (target_params : list R)
  (baselinekind result : option string) (shallow : option bool) : M estimate :=
  off_gpomdp_estimator batch disc policy target_params
    (match baselinekind with Some k => k | None => "avg" end)
    (match result with Some r => r | None => "mean" end)
    (match shallow with Some b => b | None => false end).

(** potion/common/misc_utils.py, [returns], [performance] and [avg_horizon]:
    the loops [for (_, _, rewards, _) in batch] and [for (_, _, _, mask) in
    batch] take each tuple apart into exactly four names. *)
Definition four_fields (tr : trajectory state action extra)
  : exc (trajectory state action extra) :=
  if Nat.eqb (arity tr) 4 then Ok tr else Raise ValueError.

Definition returns (batch : list (trajectory state action extra)) (gamma : R)
  : exc (list R) :=
  exc_map (fun tr => tr' <-! four_fields tr ;;
                     Ok (sum_all (discount_1d (rewards tr') gamma)))
          batch.

Definition performance (batch : list (trajectory state action extra)) (gamma : R)
  : exc fvalue :=
  rs <-! returns batch gamma ;;
  Ok (mean_all rs).

Definition avg_horizon (batch : list (trajectory state action extra)) : exc fvalue :=
  hs <-! exc_map (fun tr => tr' <-! four_fields tr ;; Ok (sum_all (mask tr'))) batch ;;
  Ok (mean_all hs).

End Callers.

(** All the lists of [xs] have one length. *)
Definition uniform {T : Type} (xs : list (list T)) : Prop :=
  exists n, Forall (fun x => List.length x = n) xs.

(** potion/common/misc_utils.py, [clip]: the action filter
    [np.clip(a, env.action_space.low, env.action_space.high)], the minimum of
    [high] and the maximum of [a] and [low] entry by entry, on an action and
    bounds of one shape. *)
Fixpoint clip (low high a : list R) : list R :=
  match a, low, high with
  | x :: a', lo :: low', hi :: high' => Rmin (Rmax x lo) hi :: clip low' high' a'
  | _, _, _ => []
  end.

(** ** script/screenutils.py and script/gpomdp_exp.py *)

(** [s.split(sep)] for a separator of one character: one more piece than
    there are separators, empty pieces kept. *)
Fixpoint split (sep : ascii) (s : string) : list string :=
  match s with
  | EmptyString => [EmptyString]
  | String c rest =>
      if Ascii.eqb c sep then EmptyString :: split sep rest
      else match split sep rest with
           | [] => [String c EmptyString]
           | w :: ws => String c w :: ws
           end
  end.

(** [sep.join(pieces)] *)
Fixpoint join (sep : string) (pieces : list string) : string :=
  match pieces with
  | [] => EmptyString
  | [x] => x
  | x :: rest => (x ++ sep ++ join sep rest)%string
  end.

Definition dot : ascii := "."%char.
Definition tab : ascii := "009"%char.
Definition newline : ascii := "010"%char.

(** [".".join(l.split(".")[1:]).split("\t")[0]]: the name in a line of
    [screen -ls], as [list_screens] and [Screen.exists] read it. *)
Definition screen_name (l : string) : string :=
  hd EmptyString (split tab (join (String dot EmptyString) (tl (split dot l)))).

(** [list_screens], on the output of the shell command; a screen is given by
    its name, which is all that [Screen(name)] stores. *)
Definition list_screens (output : string) : list string :=
  map screen_name (split newline output).

(** [Screen.exists], on the output of the shell command. *)
Definition screen_exists (name output : string) : bool :=
  existsb (String.eqb name) (map screen_name (split newline output)).

(** [c] occurs in [s]. *)
Fixpoint occurs (c : ascii) (s : string) : bool :=
  match s with
  | EmptyString => false
  | String d rest => Ascii.eqb d c || occurs c rest
  end.

(** The class [a-zA-Z] of the regular expression. *)
Definition is_letter (c : ascii) : bool :=
  let n := nat_of_ascii c in
  (Nat.leb 65 n && Nat.leb n 90) || (Nat.leb 97 n && Nat.leb n 122).

(** [re.sub(r'[^a-zA-Z]', "", s)] *)
Fixpoint sub_non_letters (s : string) : string :=
  match s with
  | EmptyString => EmptyString
  | String c rest =>
      if is_letter c then String c (sub_non_letters rest) else sub_non_letters rest
  end.

(** [s[:-1]] *)
Fixpoint drop_last (s : string) : string :=
  match s with
  | EmptyString => EmptyString
  | String c EmptyString => EmptyString
  | String c rest => String c (drop_last rest)
  end.

Definition lower_char (c : ascii) : ascii :=
  let n := nat_of_ascii c in
  if Nat.leb 65 n && Nat.leb n 90 then ascii_of_nat (n + 32) else c.

(** [s.lower()], on a string of the letters a-z and A-Z. *)
Fixpoint lower (s : string) : string :=
  match s with
  | EmptyString => EmptyString
  | String c rest => String (lower_char c) (lower rest)
  end.

(** [envname = re.sub(r'[^a-zA-Z]', "", args.env)[:-1].lower()] *)
Definition envname (env : string) : string :=
  lower (drop_last (sub_non_letters env)).

Fixpoint all_letters (s : string) : bool :=
  match s with
  | EmptyString => true
  | String c rest => is_letter c && all_letters rest
  end.

Fixpoint no_letters (s : string) : bool :=
  match s with
  | EmptyString => true
  | String c rest => negb (is_letter c) && no_letters rest
  end.

(** ** Further batches *)

Module Batches.

(** Two trajectories, the first one masked at every step. *)
Definition masked_batch : list (trajectory R R R) :=
  [ Build_trajectory [0; 0] [1; 1] [1; 1] [0; 0] [[0; 0]];
    Build_trajectory [0; 0] [1; 1] [1; 1] [1; 1] [[0; 0]] ].


(** Two four-field episodes, the second valid for one step. *)
Definition episodes : list (trajectory R R R) :=
  [ Build_trajectory [0; 0] [1; 1] [1; -1] [1; 1] [];
    Build_trajectory [0; 0] [1; 1] [1 / 2; 0] [1; 0] [] ].

(** One trajectory whose second state is 1: with behavior parameter 0 and
    target parameter -200 the log-ratio of the second step is -200. *)
Definition far_step : list (trajectory R R R) :=
  [ Build_trajectory [0; 1] [1; 1] [1; 1] [1; 1] [[0; 0]] ].

End Batches.

(** * Properties *)

(** ** Lists *)

Section Lists.

Context {T U V : Type}.

Lemma map2_length (h : T -> U -> V) a b :
  List.length (Torch.map2 h a b) = Nat.min (List.length a) (List.length b).
Proof.
  revert b. induction a as [|x a IH]; intros [|y b]; simpl; auto.
Qed.

Lemma nth_error_map2 (h : T -> U -> V) a b n w :
  nth_error (Torch.map2 h a b) n = Some w ->
  exists u v, nth_error a n = Some u /\ nth_error b n = Some v /\ w = h u v.
Proof.
  revert b n. induction a as [|x a IH]; intros [|y b] [|n]; simpl; try discriminate.
  - intros H; inversion H; eauto.
  - apply IH.
Qed.


Lemma exc_map_length (g : T -> exc U) l r :
  exc_map g l = Ok r -> List.length r = List.length l.
Proof.
  revert r. induction l as [|x l IH]; simpl; intros r H.
  - inversion H; reflexivity.
  - destruct (g x); [|discriminate]. simpl in H.
    destruct (exc_map g l); [|discriminate]. inversion H; subst. simpl.
    f_equal. apply IH. reflexivity.
Qed.

Lemma exc_map_nth_error (g : T -> exc U) l r n v :
  exc_map g l = Ok r -> nth_error r n = Some v ->
  exists x, nth_error l n = Some x /\ g x = Ok v.
Proof.
  revert r n. induction l as [|x l IH]; simpl; intros r n H Hn.
  - inversion H; subst. destruct n; discriminate.
  - destruct (g x) eqn:Hg; [|discriminate]. simpl in H.
    destruct (exc_map g l); [|discriminate]. inversion H; subst.
    destruct n; simpl in Hn.
    + inversion Hn; subst. exists x. split; [reflexivity | assumption].
    + eapply IH; [reflexivity | eassumption].
Qed.


End Lists.

(** ** Tensors *)

Section Indexed.

Context {T U V : Type}.

Lemma indexed_lt N (P : nat -> T -> Prop) x n v :
  indexed N P x -> nth_error x n = Some v -> (n < N)%nat.
Proof.
  intros [Hl _] Hn. rewrite <- Hl. apply nth_error_Some. congruence.
Qed.

Lemma indexed_weaken N (P Q : nat -> T -> Prop) x :
  indexed N P x ->
  (forall n v, (n < N)%nat -> P n v -> Q n v) ->
  indexed N Q x.
Proof.
  intros Hx HPQ. split; [apply Hx|].
  intros n v Hn. apply HPQ; [eapply indexed_lt; eauto|]. apply Hx, Hn.
Qed.

Lemma indexed_map N (P : nat -> T -> Prop) (Q : nat -> U -> Prop) (g : T -> U) x :
  indexed N P x ->
  (forall n v, (n < N)%nat -> P n v -> Q n (g v)) ->
  indexed N Q (map g x).
Proof.
  intros Hx HPQ. split; [rewrite length_map; apply Hx|].
  intros n w Hn. rewrite nth_error_map in Hn.
  destruct (nth_error x n) as [v|] eqn:Hv; [|discriminate].
  inversion Hn; subst. apply HPQ; [eapply indexed_lt; eauto|]. apply Hx, Hv.
Qed.

Lemma indexed_map2 N (P : nat -> T -> Prop) (Q : nat -> U -> Prop)
  (R : nat -> V -> Prop) (h : T -> U -> V) a b :
  indexed N P a -> indexed N Q b ->
  (forall n u v, (n < N)%nat -> P n u -> Q n v -> R n (h u v)) ->
  indexed N R (Torch.map2 h a b).
Proof.
  intros Ha Hb HR. split.
  - rewrite map2_length. destruct Ha as [-> _], Hb as [-> _]. lia.
  - intros n w Hn. apply nth_error_map2 in Hn as (u & v & Hu & Hv & ->).
    apply HR; [eapply indexed_lt; eauto| apply Ha, Hu | apply Hb, Hv].
Qed.

Lemma indexed_eq N (P Q : nat -> T -> Prop) x y :
  indexed N P x -> indexed N Q y ->
  (forall n u v, (n < N)%nat -> P n u -> Q n v -> u = v) ->
  x = y.
Proof.
  revert N P Q y. induction x as [|a x IH]; intros N P Q [|b y] [Hlx Hx] [Hly Hy] HPQ;
    simpl in *; try congruence.
  f_equal.
  - apply (HPQ 0%nat); [lia| apply (Hx 0%nat); reflexivity | apply (Hy 0%nat); reflexivity].
  - apply (IH (pred N) (fun n => P (S n)) (fun n => Q (S n))).
    + split; [lia|]. intros n v Hn. apply (Hx (S n)), Hn.
    + split; [lia|]. intros n v Hn. apply (Hy (S n)), Hn.
    + intros n u v Hn. apply HPQ. lia.
Qed.

Lemma indexed_nil (P : nat -> T -> Prop) : indexed 0 P [].
Proof. split; [reflexivity|]. intros [|n] v; discriminate. Qed.

Lemma indexed_cons N (P : nat -> T -> Prop) a x :
  P 0%nat a -> indexed N (fun n => P (S n)) x -> indexed (S N) P (a :: x).
Proof.
  intros Ha [Hl Hx]. split; [simpl; lia|].
  intros [|n] v Hn; simpl in Hn.
  - inversion Hn; subst. exact Ha.
  - apply Hx, Hn.
Qed.

Lemma indexed_cons_inv N (P : nat -> T -> Prop) a x :
  indexed N P (a :: x) ->
  exists N', N = S N' /\ P 0%nat a /\ indexed N' (fun n => P (S n)) x.
Proof.
  intros [Hl Hx]. exists (List.length x). split; [simpl in Hl; lia|]. split.
  - apply (Hx 0%nat). reflexivity.
  - split; [reflexivity|]. intros n v Hn. apply (Hx (S n)), Hn.
Qed.

Lemma indexed_nth N (P : nat -> T -> Prop) x n d :
  indexed N P x -> (n < N)%nat -> P n (nth n x d).
Proof.
  intros [Hl Hx] Hn. apply Hx. apply nth_error_nth'. lia.
Qed.

End Indexed.

Section Tensors.

Context {T : Type}.

Lemma tensor1_fun N (f g : nat -> T) x :
  tensor1 N f x -> (forall n, (n < N)%nat -> f n = g n) -> tensor1 N g x.
Proof.
  intros Hx Hfg. eapply indexed_weaken; [exact Hx|].
  intros n v Hn ->. apply Hfg, Hn.
Qed.

Lemma tensor2_fun N H (f g : nat -> nat -> T) x :
  tensor2 N H f x ->
  (forall n t, (n < N)%nat -> (t < H)%nat -> f n t = g n t) ->
  tensor2 N H g x.
Proof.
  intros Hx Hfg. eapply indexed_weaken; [exact Hx|].
  intros n v Hn Hv. eapply tensor1_fun; [exact Hv|]. intros t Ht. apply Hfg; assumption.
Qed.

Lemma tensor3_fun N H m (f g : nat -> nat -> nat -> T) x :
  tensor3 N H m f x ->
  (forall n t k, (n < N)%nat -> (t < H)%nat -> (k < m)%nat -> f n t k = g n t k) ->
  tensor3 N H m g x.
Proof.
  intros Hx Hfg. eapply indexed_weaken; [exact Hx|].
  intros n v Hn Hv. eapply tensor2_fun; [exact Hv|]. intros t k Ht Hk. apply Hfg; assumption.
Qed.

Lemma tensor1_eq N (f : nat -> T) x y : tensor1 N f x -> tensor1 N f y -> x = y.
Proof.
  intros Hx Hy. eapply indexed_eq; [exact Hx | exact Hy |].
  intros n u v _ -> ->. reflexivity.
Qed.

Lemma tensor2_eq N H (f : nat -> nat -> T) x y :
  tensor2 N H f x -> tensor2 N H f y -> x = y.
Proof.
  intros Hx Hy. eapply indexed_eq; [exact Hx | exact Hy |].
  intros n u v _ Hu Hv. cbv beta in Hu, Hv. eapply tensor1_eq; eassumption.
Qed.


Lemma tensor1_nth N (f : nat -> T) x n d :
  tensor1 N f x -> (n < N)%nat -> nth n x d = f n.
Proof. intros Hx Hn. exact (indexed_nth d Hx Hn). Qed.

Lemma tensor2_nth N H (f : nat -> nat -> T) x n t d :
  tensor2 N H f x -> (n < N)%nat -> (t < H)%nat -> nth t (nth n x []) d = f n t.
Proof.
  intros Hx Hn Ht. eapply tensor1_nth; [|exact Ht]. exact (indexed_nth [] Hx Hn).
Qed.

Lemma tensor3_nth N H m (f : nat -> nat -> nat -> T) x n t k d :
  tensor3 N H m f x -> (n < N)%nat -> (t < H)%nat -> (k < m)%nat ->
  nth k (nth t (nth n x []) []) d = f n t k.
Proof.
  intros Hx Hn Ht Hk. eapply tensor2_nth; [|exact Ht|exact Hk]. exact (indexed_nth [] Hx Hn).
Qed.

Lemma tensor1_self (x : list T) d : tensor1 (List.length x) (fun n => nth n x d) x.
Proof.
  split; [reflexivity|]. intros n v Hn. symmetry. apply nth_error_nth, Hn.
Qed.



End Tensors.

(** ** Sums over an index range *)

Lemma big_sum_ext f g n :
  (forall i, (i < n)%nat -> f i = g i) -> big_sum f n = big_sum g n.
Proof.
  induction n as [|n IH]; intros H; simpl; [reflexivity|].
  rewrite IH, H; auto.
Qed.

Lemma big_sum_shift f n : big_sum f (S n) = f 0%nat + big_sum (fun j => f (S j)) n.
Proof.
  induction n as [|n IH]; simpl in *; [ring|]. rewrite IH. ring.
Qed.


Lemma big_sum_zero f n : (forall i, (i < n)%nat -> f i = 0) -> big_sum f n = 0.
Proof.
  induction n as [|n IH]; intros H; simpl; [reflexivity|].
  rewrite IH, H; auto. ring.
Qed.

Lemma big_sum_nonneg f n : (forall i, (i < n)%nat -> 0 <= f i) -> 0 <= big_sum f n.
Proof.
  induction n as [|n IH]; intros H; simpl; [lra|].
  assert (0 <= big_sum f n) by auto. assert (0 <= f n) by auto. lra.
Qed.

Lemma big_sum_eq_0 f n :
  (forall i, (i < n)%nat -> 0 <= f i) -> big_sum f n = 0 ->
  forall i, (i < n)%nat -> f i = 0.
Proof.
  induction n as [|n IH]; intros Hpos Hsum i Hi; [lia|].
  simpl in Hsum.
  assert (0 <= big_sum f n) by (apply big_sum_nonneg; auto).
  assert (0 <= f n) by auto.
  destruct (Nat.eq_dec i n) as [->|Hne]; [lra|].
  apply IH; auto; [lra | lia].
Qed.


Lemma fbig_sum_fin f g n :
  (1 <= n)%nat -> (forall i, (i < n)%nat -> f i = Fin (g i)) ->
  fbig_sum f n = Fin (big_sum g n).
Proof.
  revert f g. induction n as [|n IH]; intros f g Hn H; [lia|].
  destruct n as [|n].
  - simpl. rewrite H by lia. f_equal. ring.
  - change (fbig_sum f (S (S n))) with (fadd (f 0%nat) (fbig_sum (fun j => f (S j)) (S n))).
    rewrite (IH (fun j => f (S j)) (fun j => g (S j))); [|lia|intros i Hi; apply H; lia].
    rewrite H by lia. rewrite (big_sum_shift g (S n)). reflexivity.
Qed.

(** What each torch operation does to shapes and entries. *)
Section Operations.

Lemma tensor2_entry N H f x :
  tensor2 N H f x -> tensor2 N H (entry2 x) x.
Proof.
  intros Hx. eapply tensor2_fun; [exact Hx|].
  intros n t Hn Ht. unfold entry2. symmetry. eapply tensor2_nth; eassumption.
Qed.

Lemma tensor3_entry N H m f x :
  tensor3 N H m f x -> tensor3 N H m (entry3 x) x.
Proof.
  intros Hx. eapply tensor3_fun; [exact Hx|].
  intros n t k Hn Ht Hk. unfold entry3. symmetry. eapply tensor3_nth; eassumption.
Qed.

Lemma tensor2_map {T U : Type} N H (f : nat -> nat -> T) (g : T -> U) x :
  tensor2 N H f x -> tensor2 N H (fun n t => g (f n t)) (map (map g) x).
Proof.
  intros Hx. eapply indexed_map; [exact Hx|]. intros n v Hn Hv.
  eapply indexed_map; [exact Hv|]. intros t w Ht ->. reflexivity.
Qed.

Lemma tensor3_map {T U : Type} N H m (f : nat -> nat -> nat -> T) (g : T -> U) x :
  tensor3 N H m f x -> tensor3 N H m (fun n t k => g (f n t k)) (map (map (map g)) x).
Proof.
  intros Hx. eapply indexed_map; [exact Hx|]. intros n v Hn Hv.
  apply (tensor2_map g Hv).
Qed.

Lemma tensor1_map2 {T U V : Type} N (f : nat -> T) (g : nat -> U) (h : T -> U -> V) a b :
  tensor1 N f a -> tensor1 N g b ->
  tensor1 N (fun n => h (f n) (g n)) (Torch.map2 h a b).
Proof.
  intros Ha Hb. eapply indexed_map2; [exact Ha | exact Hb |].
  intros n u v _ -> ->. reflexivity.
Qed.

Lemma tensor2_map2 {T U V : Type} N H (f : nat -> nat -> T) (g : nat -> nat -> U)
  (h : T -> U -> V) a b :
  tensor2 N H f a -> tensor2 N H g b ->
  tensor2 N H (fun n t => h (f n t) (g n t)) (Torch.map2 (Torch.map2 h) a b).
Proof.
  intros Ha Hb. eapply indexed_map2; [exact Ha | exact Hb |].
  intros n u v _ Hu Hv. apply (tensor1_map2 h Hu Hv).
Qed.

Lemma tensor3_map2 {T U V : Type} N H m (f : nat -> nat -> nat -> T)
  (g : nat -> nat -> nat -> U) (h : T -> U -> V) a b :
  tensor3 N H m f a -> tensor3 N H m g b ->
  tensor3 N H m (fun n t k => h (f n t k) (g n t k))
          (Torch.map2 (Torch.map2 (Torch.map2 h)) a b).
Proof.
  intros Ha Hb. eapply indexed_map2; [exact Ha | exact Hb |].
  intros n u v _ Hu Hv. apply (tensor2_map2 h Hu Hv).
Qed.

Lemma tensormat_entries N H m f g a b :
  tensor3 N H m f a -> tensor2 N H g b ->
  tensor3 N H m (fun n t k => f n t k * g n t) (tensormat a b).
Proof.
  intros Ha Hb. eapply indexed_map2; [exact Ha | exact Hb |].
  intros n u v _ Hu Hv. eapply indexed_map2; [exact Hu | exact Hv |].
  intros t w c _ Hw ->. eapply indexed_map; [exact Hw|].
  intros k x _ ->. reflexivity.
Qed.

Lemma ftensormat_entries N H m f g a b :
  tensor3 N H m f a -> tensor2 N H g b ->
  tensor3 N H m (fun n t k => fmul (f n t k) (Fin (g n t))) (ftensormat a b).
Proof.
  intros Ha Hb. eapply indexed_map2; [exact Ha | exact Hb |].
  intros n u v _ Hu Hv. eapply indexed_map2; [exact Hu | exact Hv |].
  intros t w c _ Hw ->. eapply indexed_map; [exact Hw|].
  intros k x _ ->. reflexivity.
Qed.

Lemma sub_keepdim_entries N H f g a s :
  tensor2 N H f a -> tensor1 N g s ->
  tensor2 N H (fun n t => f n t - g n) (Torch.sub_keepdim a s).
Proof.
  intros Ha Hs. eapply indexed_map2; [exact Ha | exact Hs |].
  intros n u c _ Hu ->. eapply indexed_map; [exact Hu|].
  intros t x _ ->. reflexivity.
Qed.

Lemma sub_unsqueeze_entries N H m f g r b :
  tensor2 N H f r -> tensor2 H m g b ->
  tensor3 N H m (fun n t k => fsub (Fin (f n t)) (g t k)) (Torch.sub_unsqueeze r b).
Proof.
  intros Hr Hb. eapply indexed_map; [exact Hr|].
  intros n row _ Hrow. eapply indexed_map2; [exact Hrow | exact Hb |].
  intros t c bt _ -> Hbt. eapply indexed_map; [exact Hbt|].
  intros k x _ ->. reflexivity.
Qed.

Lemma zeros_like_entries H m f a :
  tensor2 H m f a -> tensor2 H m (fun _ _ => Fin 0) (Torch.zeros_like a).
Proof. intros Ha. apply (tensor2_map (fun _ => Fin 0) Ha). Qed.

Lemma discount_from_entries H f l t0 gamma :
  tensor1 H f l ->
  tensor1 H (fun t => f t * gamma ^ (t0 + t)) (discount_from t0 l gamma).
Proof.
  revert H f t0. induction l as [|r l IH]; intros H f t0 Hl.
  - destruct Hl as [<- _]. apply indexed_nil.
  - apply indexed_cons_inv in Hl as (H' & -> & -> & Hl). cbn [discount_from].
    apply indexed_cons; [rewrite Nat.add_0_r; reflexivity|].
    eapply tensor1_fun; [apply (IH _ _ (S t0) Hl)|].
    intros t _. simpl. rewrite Nat.add_succ_r. reflexivity.
Qed.

Lemma discount_entries N H f rewards gamma :
  tensor2 N H f rewards ->
  tensor2 N H (fun n t => f n t * gamma ^ t) (discount rewards gamma).
Proof.
  intros Hr. eapply indexed_map; [exact Hr|].
  intros n row _ Hrow. apply (discount_from_entries 0 gamma Hrow).
Qed.

(** The two shapes [discount] accepts agree, and gamma = 1 changes nothing. *)
Lemma discount_batch_of_one rewards gamma :
  discount [rewards] gamma = [discount_1d rewards gamma].
Proof. reflexivity. Qed.

Lemma discount_from_one t rewards : discount_from t rewards 1 = rewards.
Proof.
  revert t. induction rewards as [|r rs IH]; intros t; simpl; [reflexivity|].
  rewrite IH, pow1. f_equal. ring.
Qed.

Lemma discount_one rewards : discount rewards 1 = rewards.
Proof.
  unfold discount. induction rewards as [|row rows IH]; simpl; [reflexivity|].
  rewrite IH, discount_from_one. reflexivity.
Qed.

Lemma cumsum_from_entries H f l acc :
  tensor1 H f l ->
  tensor1 H (fun t => acc + big_sum f (S t)) (Torch.cumsum_from acc l).
Proof.
  revert H f acc. induction l as [|x l IH]; intros H f acc Hl.
  - destruct Hl as [<- _]. apply indexed_nil.
  - apply indexed_cons_inv in Hl as (H' & -> & -> & Hl). cbn [Torch.cumsum_from].
    apply indexed_cons; [simpl; ring|].
    eapply tensor1_fun; [apply (IH _ _ (acc + f 0%nat) Hl)|].
    intros t _. cbv beta. rewrite (big_sum_shift f (S t)). ring.
Qed.

Lemma cumsum_row_entries H f l :
  tensor1 H f l -> tensor1 H (fun t => big_sum f (S t)) (Torch.cumsum_row l).
Proof.
  destruct l as [|x l]; intros Hl.
  - destruct Hl as [<- _]. apply indexed_nil.
  - apply indexed_cons_inv in Hl as (H' & -> & -> & Hl). cbn [Torch.cumsum_row].
    apply indexed_cons; [simpl; ring|].
    eapply tensor1_fun; [apply (cumsum_from_entries (f 0%nat) Hl)|].
    intros t _. cbv beta. rewrite (big_sum_shift f (S t)). reflexivity.
Qed.

Lemma cumsum_1_entries N H f x :
  tensor2 N H f x ->
  tensor2 N H (fun n t => big_sum (f n) (S t)) (Torch.cumsum_1 x).
Proof.
  intros Hx. eapply indexed_map; [exact Hx|].
  intros n row _ Hrow. apply (cumsum_row_entries Hrow).
Qed.

Lemma vcumsum_from_entries H m f l a acc :
  tensor2 H m f l -> tensor1 m a acc ->
  tensor2 H m (fun t k => a k + big_sum (fun s => f s k) (S t))
          (Torch.vcumsum_from acc l).
Proof.
  revert H f a acc. induction l as [|v l IH]; intros H f a acc Hl Hacc.
  - destruct Hl as [<- _]. apply indexed_nil.
  - apply indexed_cons_inv in Hl as (H' & -> & Hv & Hl). cbn [Torch.vcumsum_from].
    apply indexed_cons.
    + eapply tensor1_fun; [apply (tensor1_map2 Rplus Hacc Hv)|].
      intros k _. simpl. ring.
    + eapply tensor2_fun;
        [apply (IH _ _ _ _ Hl (tensor1_map2 Rplus Hacc Hv))|].
      intros t k _ _. cbv beta. rewrite (big_sum_shift (fun s => f s k) (S t)). ring.
Qed.

Lemma vcumsum_row_entries H m f l :
  tensor2 H m f l ->
  tensor2 H m (fun t k => big_sum (fun s => f s k) (S t)) (Torch.vcumsum_row l).
Proof.
  destruct l as [|v l]; intros Hl.
  - destruct Hl as [<- _]. apply indexed_nil.
  - apply indexed_cons_inv in Hl as (H' & -> & Hv & Hl). cbn [Torch.vcumsum_row].
    apply indexed_cons.
    + eapply tensor1_fun; [exact Hv|]. intros k _. simpl. ring.
    + eapply tensor2_fun; [apply (vcumsum_from_entries Hl Hv)|].
      intros t k _ _. cbv beta. rewrite (big_sum_shift (fun s => f s k) (S t)).
      reflexivity.
Qed.

Lemma cumsum_1_3d_entries N H m f x :
  tensor3 N H m f x ->
  tensor3 N H m (fun n t k => big_sum (fun s => f n s k) (S t)) (Torch.cumsum_1_3d x).
Proof.
  intros Hx. eapply indexed_map; [exact Hx|].
  intros n mat _ Hmat. apply (vcumsum_row_entries Hmat).
Qed.

Lemma sum_0_3d_entries N H m f x :
  tensor3 N H m f x -> (1 <= N)%nat ->
  tensor2 H m (fun t k => big_sum (fun n => f n t k) N) (Torch.sum_0_3d x).
Proof.
  revert N f. induction x as [|a x IH]; intros N f Hx HN.
  - destruct Hx as [<- _]. simpl in HN. lia.
  - apply indexed_cons_inv in Hx as (N' & -> & Ha & Hx).
    destruct x as [|b x].
    + destruct Hx as [<- _]. simpl.
      eapply tensor2_fun; [exact Ha|]. intros t k _ _. ring.
    + assert (HN' : (1 <= N')%nat) by (destruct Hx as [<- _]; simpl; lia).
      specialize (IH N' (fun n => f (S n)) Hx HN').
      change (Torch.sum_0_3d (a :: b :: x))
        with (Torch.madd a (Torch.sum_0_3d (b :: x))).
      eapply tensor2_fun; [apply (tensor2_map2 Rplus Ha IH)|].
      intros t k _ _. cbv beta. rewrite (big_sum_shift (fun n => f n t k) N').
      reflexivity.
Qed.

Lemma fvsum_entries H m (f : nat -> nat -> fvalue) x :
  tensor2 H m f x -> (1 <= H)%nat ->
  tensor1 m (fun k => fbig_sum (fun t => f t k) H) (Torch.fvsum x).
Proof.
  revert H f. induction x as [|a x IH]; intros H f Hx HH.
  - destruct Hx as [<- _]. simpl in HH. lia.
  - apply indexed_cons_inv in Hx as (H' & -> & Ha & Hx).
    destruct x as [|b x].
    + destruct Hx as [<- _]. simpl. exact Ha.
    + assert (HH' : (1 <= H')%nat) by (destruct Hx as [<- _]; simpl; lia).
      specialize (IH H' (fun t => f (S t)) Hx HH').
      change (Torch.fvsum (a :: b :: x)) with (Torch.fvadd a (Torch.fvsum (b :: x))).
      eapply tensor1_fun; [apply (tensor1_map2 fadd Ha IH)|].
      intros k _. destruct H' as [|H']; [lia|]. reflexivity.
Qed.

Lemma fsum_1_entries N H m (f : nat -> nat -> nat -> fvalue) x :
  tensor3 N H m f x -> (1 <= H)%nat ->
  tensor2 N m (fun n k => fbig_sum (fun t => f n t k) H) (Torch.fsum_1 x).
Proof.
  intros Hx HH. eapply indexed_map; [exact Hx|].
  intros n mat _ Hmat. apply (fvsum_entries Hmat HH).
Qed.


(** The row maximum is an entry of the row and bounds every entry. *)
Lemma max_from_spec l acc :
  (Torch.max_from acc l = acc \/ In (Torch.max_from acc l) l) /\
  acc <= Torch.max_from acc l /\
  Forall (fun v => v <= Torch.max_from acc l) l.
Proof.
  revert acc. induction l as [|x l IH]; intros acc; simpl.
  - split; [left; reflexivity|]. split; [lra|constructor].
  - destruct (IH (Rmax acc x)) as (Hin & Hle & Hall).
    pose proof (Rmax_l acc x). pose proof (Rmax_r acc x).
    split; [|split; [lra|constructor; [lra|exact Hall]]].
    destruct Hin as [Heq|Hin]; [|right; right; exact Hin].
    rewrite Heq. unfold Rmax. destruct (Rle_dec acc x); [right; left|left]; reflexivity.
Qed.

Lemma max_1_spec x s :
  Torch.max_1 x = Ok s ->
  Forall2 (fun row m => In m row /\ Forall (fun v => v <= m) row) x s.
Proof.
  unfold Torch.max_1. revert s. induction x as [|row x IH]; intros s H.
  - inversion H. constructor.
  - cbn [exc_map] in H. destruct row as [|v row]; [discriminate|].
    cbn [Torch.max_row exc_bind] in H.
    destruct (exc_map Torch.max_row x) as [s'|] eqn:Hs; [|discriminate].
    cbn [exc_bind] in H. inversion H; subst. constructor; [|apply IH; reflexivity].
    destruct (max_from_spec row v) as (Hin & Hle & Hall).
    split; [destruct Hin as [->|Hin]; [left; reflexivity | right; exact Hin]|].
    constructor; assumption.
Qed.

Lemma shape_tensor2 N H x : shape N H x -> tensor2 N H (entry2 x) x.
Proof.
  intros Hx. split; [apply Hx|]. intros n row Hn.
  pose proof (proj2 Hx n row Hn) as Hlen. cbv beta in Hlen. subst H.
  unfold entry2. rewrite (nth_error_nth _ _ [] Hn). apply tensor1_self.
Qed.

Lemma shape3_tensor3 N H m x : shape3 N H m x -> tensor3 N H m (entry3 x) x.
Proof.
  intros Hx. split; [apply Hx|]. intros n mat Hn.
  pose proof (proj2 Hx n mat Hn) as Hmat. cbv beta in Hmat.
  apply shape_tensor2 in Hmat.
  eapply tensor2_fun; [exact Hmat|]. intros t k _ _.
  unfold entry3, entry2. rewrite (nth_error_nth _ _ [] Hn). reflexivity.
Qed.


(** Lines 49, 57 and 61-70, entry by entry. *)
Lemma G_entries N H m sc mk scores mask :
  tensor3 N H m sc scores -> tensor2 N H mk mask ->
  tensor3 N H m (fun n t k => big_sum (fun s => sc n s k * mk n s) (S t))
          (Torch.cumsum_1_3d (tensormat scores mask)).
Proof.
  intros Hs Hm. apply (cumsum_1_3d_entries (tensormat_entries Hs Hm)).
Qed.

Lemma log_iws_entries N H tl bl tlp blp :
  tensor2 N H tl tlp -> tensor2 N H bl blp ->
  tensor2 N H (fun n t => big_sum (fun s => tl n s - bl n s) (S t))
          (Torch.cumsum_1 (Torch.sub tlp blp)).
Proof.
  intros Ht Hb. apply (cumsum_1_entries (tensor2_map2 Rminus Ht Hb)).
Qed.

Lemma peters_weights_entries N H li s log_iws stabilizers :
  tensor2 N H li log_iws -> tensor1 N s stabilizers ->
  tensor2 N H (fun n t => exp (2 * (li n t - s n))) (peters_weights log_iws stabilizers).
Proof.
  intros Hl Hs. unfold peters_weights, Torch.exp, Torch.scale.
  apply (tensor2_map exp (tensor2_map (Rmult 2) (sub_keepdim_entries Hl Hs))).
Qed.

Lemma square_entries N H m g G :
  tensor3 N H m g G -> tensor3 N H m (fun n t k => g n t k ^ 2) (Torch.square G).
Proof. intros HG. apply (tensor3_map (fun x => x ^ 2) HG). Qed.

Lemma peters_numerator_entries N H m g r li s G disc_rewards log_iws stabilizers :
  (1 <= N)%nat ->
  tensor3 N H m g G -> tensor2 N H r disc_rewards ->
  tensor2 N H li log_iws -> tensor1 N s stabilizers ->
  tensor2 H m
    (fun t k => big_sum (fun n => g n t k ^ 2 * (r n t * exp (2 * (li n t - s n)))) N)
    (peters_numerator G disc_rewards log_iws stabilizers).
Proof.
  intros HN HG Hr Hl Hs. unfold peters_numerator, Torch.mul.
  apply (sum_0_3d_entries
           (tensormat_entries (square_entries HG)
              (tensor2_map2 Rmult Hr (peters_weights_entries Hl Hs))) HN).
Qed.

Lemma peters_denominator_entries N H m g li s G log_iws stabilizers :
  (1 <= N)%nat ->
  tensor3 N H m g G -> tensor2 N H li log_iws -> tensor1 N s stabilizers ->
  tensor2 H m
    (fun t k => big_sum (fun n => g n t k ^ 2 * exp (2 * (li n t - s n))) N)
    (peters_denominator G log_iws stabilizers).
Proof.
  intros HN HG Hl Hs. unfold peters_denominator.
  apply (sum_0_3d_entries
           (tensormat_entries (square_entries HG) (peters_weights_entries Hl Hs)) HN).
Qed.

Lemma peters_baseline_entries N H m g r li s G disc_rewards log_iws stabilizers :
  (1 <= N)%nat ->
  tensor3 N H m g G -> tensor2 N H r disc_rewards ->
  tensor2 N H li log_iws -> tensor1 N s stabilizers ->
  tensor2 H m
    (fun t k =>
       fdiv (Fin (big_sum (fun n => g n t k ^ 2 * (r n t * exp (2 * (li n t - s n)))) N))
            (Fin (big_sum (fun n => g n t k ^ 2 * exp (2 * (li n t - s n))) N)))
    (peters_baseline G disc_rewards log_iws stabilizers).
Proof.
  intros HN HG Hr Hl Hs. unfold peters_baseline, Torch.div.
  apply (tensor2_map2 (fun p q => fdiv (Fin p) (Fin q))
           (peters_numerator_entries HN HG Hr Hl Hs)
           (peters_denominator_entries HN HG Hl Hs)).
Qed.

Lemma scrub_nan_entries H m (b : nat -> nat -> fvalue) baseline :
  tensor2 H m b baseline ->
  tensor2 H m (fun t k => if is_nan (b t k) then Fin 0 else b t k)
          (Torch.scrub_nan baseline).
Proof.
  intros Hb. apply (tensor2_map (fun v => if is_nan v then Fin 0 else v) Hb).
Qed.

Lemma combine_samples_entries N H m g v mk li G values mask log_iws :
  (1 <= H)%nat ->
  tensor3 N H m g G -> tensor3 N H m v values ->
  tensor2 N H mk mask -> tensor2 N H li log_iws ->
  tensor2 N m
    (fun n k => fbig_sum (fun t => fmul (fmul (Fin (g n t k)) (v n t k))
                                        (Fin (mk n t * exp (li n t)))) H)
    (combine_samples G values mask log_iws).
Proof.
  intros HH HG Hv Hm Hl. unfold combine_samples, Torch.fmul_3d, Torch.mul, Torch.exp.
  apply (fsum_1_entries
           (ftensormat_entries
              (tensor3_map2 (fun x y => fmul (Fin x) y) HG Hv)
              (tensor2_map2 Rmult Hm (tensor2_map exp Hl))) HH).
Qed.

(** In exact arithmetic the quotient of the Peters baseline is never
    infinite: a denominator that vanishes takes the numerator with it. *)
Lemma peters_ratio_zero g r w N :
  (forall n, (n < N)%nat -> 0 < w n) ->
  big_sum (fun n => g n ^ 2 * w n) N = 0 ->
  big_sum (fun n => g n ^ 2 * (r n * w n)) N = 0.
Proof.
  intros Hw Hden. apply big_sum_zero. intros n Hn.
  assert (Hterm : g n ^ 2 * w n = 0).
  { apply (@big_sum_eq_0 (fun n => g n ^ 2 * w n) N); [|exact Hden|exact Hn].
    intros i Hi. specialize (Hw i Hi). cbv beta.
    assert (0 <= g i ^ 2) by (simpl; nra). nra. }
  specialize (Hw n Hn).
  assert (Hg : g n ^ 2 = 0) by nra. rewrite Hg. ring.
Qed.

End Operations.

(** ** The range of float32 *)

Section FloatRange.

Lemma exp_nat n : exp (INR n) = exp 1 ^ n.
Proof.
  induction n as [|n IH]; [simpl; apply exp_0|].
  rewrite S_INR, exp_plus, IH. simpl. ring.
Qed.

Lemma exp_1_gt_2 : 2 < exp 1.
Proof. pose proof (exp_ineq1 1). lra. Qed.

Lemma exp_le x y : x <= y -> exp x <= exp y.
Proof.
  intros [Hlt|Heq]; [left; apply exp_increasing, Hlt|rewrite Heq; right; reflexivity].
Qed.

Lemma exp_150 : 2 ^ 150 <= exp 150.
Proof.
  replace 150 with (INR 150) by (rewrite INR_IZR_INZ; reflexivity). rewrite exp_nat.
  apply pow_incr. pose proof exp_1_gt_2. lra.
Qed.

Lemma exp_80 : exp 80 < 2 ^ 128 - 2 ^ 103.
Proof.
  replace 80 with (INR 80) by (rewrite INR_IZR_INZ; reflexivity). rewrite exp_nat.
  apply Rle_lt_trans with (3 ^ 80); [|lra].
  apply pow_incr. pose proof (exp_pos 1). pose proof exp_le_3. lra.
Qed.

(** Underflow: below -150 the exponential is 0 in float32. *)
Lemma exp32_underflow x : x <= -150 -> exp32 x = Fin 0.
Proof.
  intros Hx. unfold exp32.
  destruct (Rle_dec (exp x) (/ 2 ^ 150)) as [_|Hn]; [reflexivity|]. exfalso. apply Hn.
  apply Rle_trans with (exp (Ropp 150)); [apply exp_le; lra|].
  rewrite exp_Ropp. apply Rinv_le_contravar; [apply pow_lt; lra|apply exp_150].
Qed.

(** Overflow: from 150 on the exponential is infinite in float32. *)
Lemma exp32_overflow x : 150 <= x -> exp32 x = Inf true.
Proof.
  intros Hx. unfold exp32.
  assert (H150 : 2 ^ 150 <= exp x).
  { apply Rle_trans with (exp 150); [apply exp_150|apply exp_le, Hx]. }
  assert (Hsmall : / 2 ^ 150 < 1).
  { apply Rmult_lt_reg_r with (2 ^ 150); [apply pow_lt; lra|].
    rewrite Rinv_l by (apply pow_nonzero; lra). lra. }
  destruct (Rle_dec (exp x) (/ 2 ^ 150)) as [Hle|_]; [exfalso; lra|].
  destruct (Rle_dec (2 ^ 128 - 2 ^ 103) (exp x)) as [_|Hn]; [reflexivity|].
  exfalso. apply Hn. lra.
Qed.

(** No overflow up to 80. *)
Lemma exp32_finite x : x <= 80 -> exp32 x <> Inf true.
Proof.
  intros Hx. unfold exp32.
  destruct (Rle_dec (exp x) (/ 2 ^ 150)) as [_|_]; [discriminate|].
  destruct (Rle_dec (2 ^ 128 - 2 ^ 103) (exp x)) as [Hge|_]; [|discriminate].
  exfalso. pose proof (exp_le Hx). pose proof exp_80. lra.
Qed.

(** At a nonpositive argument the float32 exponential is a number of [0,1]. *)
Lemma exp32_nonpos x : x <= 0 -> exists w, exp32 x = Fin w /\ 0 <= w <= 1.
Proof.
  intros Hx. unfold exp32.
  assert (Hle : exp x <= 1) by (rewrite <- exp_0; apply exp_le, Hx).
  destruct (Rle_dec (exp x) (/ 2 ^ 150)) as [_|_]; [exists 0; split; [reflexivity|lra]|].
  destruct (Rle_dec (2 ^ 128 - 2 ^ 103) (exp x)) as [Hge|_]; [exfalso; lra|].
  exists (exp x). split; [reflexivity|]. pose proof (exp_pos x). lra.
Qed.

Lemma exp32_0 : exp32 0 = Fin 1.
Proof.
  unfold exp32. rewrite exp_0.
  assert (Hsmall : / 2 ^ 150 < 1).
  { apply Rmult_lt_reg_r with (2 ^ 150); [apply pow_lt; lra|].
    rewrite Rinv_l by (apply pow_nonzero; lra). lra. }
  destruct (Rle_dec 1 (/ 2 ^ 150)) as [Hle|_]; [exfalso; lra|].
  destruct (Rle_dec (2 ^ 128 - 2 ^ 103) 1) as [Hge|_]; [exfalso; lra|reflexivity].
Qed.

(** The factor [mask * exp(log_iws)] of line 70 at a masked entry: 0 unless
    the exponential has overflowed, and then not-a-number. *)
Lemma masked_factor x :
  (exp32 x <> Inf true -> fmul (Fin 0) (exp32 x) = Fin 0) /\
  (exp32 x = Inf true -> fmul (Fin 0) (exp32 x) = NaN).
Proof.
  split.
  - intros Hfin. unfold exp32 in *.
    destruct (Rle_dec (exp x) (/ 2 ^ 150)); [cbn [fmul]; f_equal; ring|].
    destruct (Rle_dec (2 ^ 128 - 2 ^ 103) (exp x)); [congruence|].
    cbn [fmul]. f_equal. ring.
  - intros ->. cbn [fmul]. unfold scale_inf.
    destruct (Req_EM_T 0 0) as [_|Hn]; [reflexivity|exfalso; apply Hn; reflexivity].
Qed.

End FloatRange.

Section Runs.

Variables state action extra : Type.
Implicit Types (batch : list (trajectory state action extra)) (policy : Policy state action).

Lemma nth_error_combine {T U : Type} (a : list T) (b : list U) n x y :
  nth_error (combine a b) n = Some (x, y) ->
  nth_error a n = Some x /\ nth_error b n = Some y.
Proof.
  revert b n. induction a as [|u a IH]; intros [|v b] [|n]; simpl; try discriminate.
  - intros H; inversion H; auto.
  - apply IH.
Qed.

Lemma stack_ok {T : Type} (xs r : list (list T)) :
  stack xs = Ok r ->
  r = xs /\ (1 <= List.length xs)%nat /\ shape (List.length xs) (horizon xs) xs.
Proof.
  unfold stack. destruct xs as [|x rest]; [discriminate|].
  destruct (same_length (List.length x) rest) eqn:Hs; [|discriminate].
  intros H; inversion H; subst. split; [reflexivity|]. split; [simpl; lia|].
  unfold horizon. simpl hd. apply indexed_cons; [reflexivity|].
  clear H. induction rest as [|y rest IH]; [apply indexed_nil|].
  simpl in Hs. apply andb_prop in Hs as [Hy Hs]. apply Nat.eqb_eq in Hy.
  apply indexed_cons; [exact Hy|]. apply IH, Hs.
Qed.

Lemma shape_horizon {T : Type} N H (x : list (list T)) :
  shape N H x -> (1 <= N)%nat -> horizon x = H.
Proof.
  intros [Hl Hx] HN. unfold horizon. destruct x as [|row x]; [simpl in Hl; lia|].
  apply (Hx 0%nat). reflexivity.
Qed.

(** A batch that passes [unpack] and the shape check is N x H in its four
    fields, with N at least 1. *)
Lemma unpack_shapes batch b :
  unpack batch = Ok b -> check_shapes b = Ok tt ->
  exists N H,
    (1 <= N)%nat /\ N = List.length batch /\
    st_states b = map (@states _ _ _) batch /\
    st_actions b = map (@actions _ _ _) batch /\
    st_rewards b = map (@rewards _ _ _) batch /\
    st_mask b = map (@mask _ _ _) batch /\
    shape N H (st_states b) /\ shape N H (st_actions b) /\
    shape N H (st_rewards b) /\ shape N H (st_mask b).
Proof.
  unfold unpack. destruct batch as [|tr rest]; [discriminate|].
  set (batch := tr :: rest).
  destruct (stack (map (@states _ _ _) batch)) as [st|] eqn:Hst; [|cbn [exc_bind]; discriminate].
  destruct (stack (map (@actions _ _ _) batch)) as [ac|] eqn:Hac; [|cbn [exc_bind]; discriminate].
  destruct (stack (map (@rewards _ _ _) batch)) as [rw|] eqn:Hrw; [|cbn [exc_bind]; discriminate].
  destruct (stack (map (@mask _ _ _) batch)) as [mk|] eqn:Hmk; [|cbn [exc_bind]; discriminate].
  cbn [exc_bind].
  destruct (Nat.ltb (zip_arity batch) 5); [discriminate|].
  match goal with |- exc_bind ?c _ = _ -> _ => destruct c end; cbn [exc_bind]; [|discriminate].
  destruct (Nat.ltb 5 (zip_arity batch)).
  { match goal with |- exc_bind ?c _ = _ -> _ => destruct c end; cbn [exc_bind]; discriminate. }
  intros Hb; inversion Hb; subst b; clear Hb.
  apply stack_ok in Hst as (-> & HN & Hst), Hac as (-> & _ & Hac),
      Hrw as (-> & _ & Hrw), Hmk as (-> & _ & Hmk).
  rewrite length_map in *.
  unfold check_shapes. cbn [st_states st_actions st_rewards st_mask].
  destruct (Nat.eqb _ _) eqn:H1; [|discriminate].
  destruct (Nat.eqb (horizon (map (@rewards _ _ _) batch)) _) eqn:H2; [|discriminate].
  destruct (Nat.eqb (horizon (map (@mask _ _ _) batch)) _) eqn:H3; [|discriminate].
  intros _. apply Nat.eqb_eq in H1, H2, H3. rewrite H1 in Hac. rewrite H2 in Hrw.
  rewrite H3 in Hmk.
  exists (List.length batch), (horizon (map (@states _ _ _) batch)).
  repeat split; assumption || reflexivity || apply Hst || apply Hac || apply Hrw || apply Hmk.
Qed.

Lemma over_steps_shape {T : Type} (f : state -> action -> exc T) N H st ac r :
  shape N H st -> shape N H ac -> over_steps f st ac = Ok r -> shape N H r.
Proof.
  intros Hst Hac Hr. unfold over_steps in Hr. split.
  - rewrite (exc_map_length _ _ Hr), length_combine.
    destruct Hst as [-> _], Hac as [-> _]. lia.
  - intros n row Hn.
    destruct (exc_map_nth_error _ _ _ Hr Hn) as ([srow arow] & Hsa & Hrow).
    apply nth_error_combine in Hsa as [Hs Ha]. cbn [fst snd] in Hrow.
    rewrite (exc_map_length _ _ Hrow), length_combine.
    rewrite (proj2 Hst n srow Hs), (proj2 Hac n arow Ha). lia.
Qed.

Lemma score_shape policy theta N H st ac r :
  shape N H st -> shape N H ac ->
  over_steps (score_checked policy theta) st ac = Ok r ->
  shape3 N H (param_dim policy) r.
Proof.
  intros Hst Hac Hr. pose proof (over_steps_shape _ Hst Hac Hr) as Hshape.
  split; [apply Hshape|]. intros n mat Hn. split; [apply (proj2 Hshape n mat Hn)|].
  intros t v Ht. unfold over_steps in Hr.
  destruct (exc_map_nth_error _ _ _ Hr Hn) as ([srow arow] & _ & Hmat).
  destruct (exc_map_nth_error _ _ _ Hmat Ht) as ([s a] & _ & Hv).
  cbn [fst snd] in Hv. unfold score_checked in Hv.
  destruct (score_step policy theta s a) as [w|]; [|discriminate]. cbn [exc_bind] in Hv.
  destruct (Nat.eqb (List.length w) (param_dim policy)) eqn:Hw; [|discriminate].
  inversion Hv; subst. apply Nat.eqb_eq, Hw.
Qed.

(** The pure part of the estimator: lines 57-70 once the three policy
    evaluations are in. *)
Lemma estimator_body_ok batch disc policy target bk theta l theta' :
  estimator_body batch disc policy target bk theta = (Ok l, theta') ->
  exists b scores blp tlp stab base,
    unpack batch = Ok b /\
    check_shapes b = Ok tt /\
    over_steps (score_checked policy theta) (st_states b) (st_actions b) = Ok scores /\
    over_steps (log_pdf_step policy theta) (st_states b) (st_actions b) = Ok blp /\
    over_steps (log_pdf_step policy target) (st_states b) (st_actions b) = Ok tlp /\
    Torch.max_1 (Torch.cumsum_1 (Torch.sub tlp blp)) = Ok stab /\
    ((bk =? "peters") = true /\
       base = peters_baseline (Torch.cumsum_1_3d (tensormat scores (st_mask b)))
                (discount (st_rewards b) disc) (Torch.cumsum_1 (Torch.sub tlp blp)) stab
     \/ (bk =? "peters") = false /\ (bk =? "zero") = true /\
       base = Torch.zeros_like (hd [] (Torch.cumsum_1_3d (tensormat scores (st_mask b))))) /\
    theta' = theta /\
    l = {| l_mask := st_mask b;
           l_disc_rewards := discount (st_rewards b) disc;
           l_scores := scores;
           l_G := Torch.cumsum_1_3d (tensormat scores (st_mask b));
           l_behavioral_logps := blp;
           l_target_logps := tlp;
           l_log_iws := Torch.cumsum_1 (Torch.sub tlp blp);
           l_stabilizers := stab;
           l_baseline := Torch.scrub_nan base;
           l_values := Torch.sub_unsqueeze (discount (st_rewards b) disc) (Torch.scrub_nan base);
           l_samples := combine_samples (Torch.cumsum_1_3d (tensormat scores (st_mask b)))
                          (Torch.sub_unsqueeze (discount (st_rewards b) disc) (Torch.scrub_nan base))
                          (st_mask b) (Torch.cumsum_1 (Torch.sub tlp blp)) |}.
Proof.
  unfold estimator_body, bind, lift, score, log_pdf, get_flat, set_from_flat, ret, raise.
  destruct (unpack batch) as [b|e] eqn:Hu; [|discriminate].
  destruct (check_shapes b) as [[]|e] eqn:Hc; [|discriminate].
  destruct (over_steps (score_checked policy theta) _ _) as [scores|e] eqn:Hs; [|discriminate].
  destruct (over_steps (log_pdf_step policy theta) _ _) as [blp|e] eqn:Hb; [|discriminate].
  destruct (over_steps (log_pdf_step policy target) _ _) as [tlp|e] eqn:Ht; [|discriminate].
  destruct (Torch.max_1 _) as [stab|e] eqn:Hm; [|discriminate].
  destruct (bk =? "peters") eqn:Hp.
  - intros H; inversion H; subst.
    exists b, scores, blp, tlp, stab. eexists.
    do 6 (split; [eassumption || reflexivity|]).
    split; [left; split; reflexivity|]. split; reflexivity.
  - destruct (bk =? "zero") eqn:Hz; [|discriminate].
    intros H; inversion H; subst.
    exists b, scores, blp, tlp, stab. eexists.
    do 6 (split; [eassumption || reflexivity|]).
    split; [right; repeat split; reflexivity|]. split; reflexivity.
Qed.

(** How the locals of a successful run are related, and their shapes. *)
Lemma estimator_body_locals batch disc policy target bk theta l theta' :
  estimator_body batch disc policy target bk theta = (Ok l, theta') ->
  exists b,
    unpack batch = Ok b /\ check_shapes b = Ok tt /\
    l_mask l = st_mask b /\
    l_disc_rewards l = discount (st_rewards b) disc /\
    over_steps (score_checked policy theta) (st_states b) (st_actions b)
    = Ok (l_scores l) /\
    over_steps (log_pdf_step policy theta) (st_states b) (st_actions b)
    = Ok (l_behavioral_logps l) /\
    over_steps (log_pdf_step policy target) (st_states b) (st_actions b)
    = Ok (l_target_logps l) /\
    l_G l = Torch.cumsum_1_3d (tensormat (l_scores l) (l_mask l)) /\
    l_log_iws l = Torch.cumsum_1 (Torch.sub (l_target_logps l) (l_behavioral_logps l)) /\
    Torch.max_1 (l_log_iws l) = Ok (l_stabilizers l) /\
    l_baseline l
    = Torch.scrub_nan
        (if bk =? "peters" then
           peters_baseline (l_G l) (l_disc_rewards l) (l_log_iws l) (l_stabilizers l)
         else Torch.zeros_like (hd [] (l_G l))) /\
    l_values l = Torch.sub_unsqueeze (l_disc_rewards l) (l_baseline l) /\
    l_samples l = combine_samples (l_G l) (l_values l) (l_mask l) (l_log_iws l) /\
    theta' = theta /\
    ((bk =? "peters") = true \/ (bk =? "zero") = true).
Proof.
  intros Hrun.
  apply estimator_body_ok in Hrun
    as (b & scores & blp & tlp & stab & base & Hu & Hc & Hs & Hb & Ht & Hm & Hbase & -> & ->).
  exists b. cbn [l_mask l_disc_rewards l_scores l_G l_behavioral_logps l_target_logps
                 l_log_iws l_stabilizers l_baseline l_values l_samples].
  repeat (split; [assumption || reflexivity|]).
  split; [destruct Hbase as [[-> ->]|(-> & _ & ->)]; reflexivity|].
  do 3 (split; [reflexivity|]).
  destruct Hbase as [[-> _]|(_ & -> & _)]; [left|right]; reflexivity.
Qed.

Lemma estimator_body_tensors batch disc policy target bk theta l theta' :
  estimator_body batch disc policy target bk theta = (Ok l, theta') ->
  let N := List.length batch in
  let H := horizon (l_mask l) in
  (1 <= N)%nat /\ (1 <= H)%nat /\
  tensor2 N H (entry2 (l_mask l)) (l_mask l) /\
  tensor2 N H (entry2 (l_disc_rewards l)) (l_disc_rewards l) /\
  tensor3 N H (param_dim policy) (entry3 (l_scores l)) (l_scores l) /\
  tensor3 N H (param_dim policy) (entry3 (l_G l)) (l_G l) /\
  tensor2 N H (entry2 (l_behavioral_logps l)) (l_behavioral_logps l) /\
  tensor2 N H (entry2 (l_target_logps l)) (l_target_logps l) /\
  tensor2 N H (entry2 (l_log_iws l)) (l_log_iws l) /\
  tensor1 N (fun n => nth n (l_stabilizers l) 0) (l_stabilizers l).
Proof.
  intros Hrun.
  apply estimator_body_locals in Hrun
    as (b & Hu & Hc & Hmask & Hdisc & Hs & Hb & Ht & HG & Hli & Hmax & _).
  destruct (unpack_shapes _ Hu Hc)
    as (N & H & HN & HNb & _ & _ & _ & _ & Hst & Hac & Hrw & Hmk).
  rewrite Hmask, (shape_horizon Hmk HN), <- HNb, <- Hmask. cbv zeta.
  pose proof (shape_tensor2 Hmk) as Tmask. rewrite <- Hmask in Tmask.
  pose proof (tensor2_entry (discount_entries disc (shape_tensor2 Hrw))) as Tdisc.
  rewrite <- Hdisc in Tdisc.
  pose proof (shape3_tensor3 (score_shape _ _ Hst Hac Hs)) as Tsc.
  pose proof (tensor3_entry (G_entries Tsc Tmask)) as TG. rewrite <- HG in TG.
  pose proof (shape_tensor2 (over_steps_shape _ Hst Hac Hb)) as Tb.
  pose proof (shape_tensor2 (over_steps_shape _ Hst Hac Ht)) as Tt.
  pose proof (tensor2_entry (log_iws_entries Tt Tb)) as Tli. rewrite <- Hli in Tli.
  pose proof (max_1_spec _ Hmax) as Hspec.
  assert (Hlen : List.length (l_stabilizers l) = N).
  { rewrite <- (Forall2_length Hspec). apply Tli. }
  assert (HH : (1 <= H)%nat).
  { destruct (l_log_iws l) as [|row rows] eqn:Hrows.
    - destruct Tli as [Hl _]. simpl in Hl. lia.
    - inversion Hspec as [|? m ? ? [Hin _] _]; subst.
      pose proof (proj2 Tli 0%nat row eq_refl) as [Hrow _]. rewrite <- Hrow.
      destruct row; [destruct Hin|simpl; lia]. }
  do 9 (split; [assumption|]).
  rewrite <- Hlen. apply tensor1_self.
Qed.

Lemma tensor2_Forall {T : Type} H m (f : nat -> nat -> T) (P : T -> Prop) x :
  tensor2 H m f x -> (forall t k, P (f t k)) -> Forall (Forall P) x.
Proof.
  intros Hx HP. apply Forall_forall. intros row Hrow.
  apply In_nth_error in Hrow as [t Ht]. pose proof (proj2 Hx t row Ht) as Hr.
  apply Forall_forall. intros v Hv. apply In_nth_error in Hv as [k Hk].
  rewrite (proj2 Hr k v Hk). apply HP.
Qed.

Lemma tensor2_fentry H m (f : nat -> nat -> fvalue) x t k :
  tensor2 H m f x -> (t < H)%nat -> (k < m)%nat -> fentry2 x t k = Some (f t k).
Proof.
  intros Hx Ht Hk. unfold fentry2.
  destruct (nth_error x t) as [row|] eqn:Hrow.
  - pose proof (proj2 Hx t row Hrow) as Hr. cbv beta in Hr.
    destruct (nth_error row k) as [v|] eqn:Hv.
    + f_equal. apply (proj2 Hr k v Hv).
    + apply nth_error_None in Hv. destruct Hr as [Hl _]. lia.
  - apply nth_error_None in Hrow. destruct Hx as [Hl _]. lia.
Qed.

(** In exact arithmetic the baseline that enters the combination step is
    finite: its entries are those of [baseline_entry]. *)
Lemma baseline_tensor batch disc policy target bk theta l theta' :
  estimator_body batch disc policy target bk theta = (Ok l, theta') ->
  tensor2 (horizon (l_mask l)) (param_dim policy)
    (fun t k => Fin (baseline_entry bk (List.length batch) (l_G l) (l_disc_rewards l)
                       (l_log_iws l) (l_stabilizers l) t k))
    (l_baseline l).
Proof.
  intros Hrun.
  destruct (estimator_body_tensors _ _ _ _ _ _ Hrun)
    as (HN & HH & Tmask & Tdisc & Tsc & TG & Tb & Tt & Tli & Tstab).
  apply estimator_body_locals in Hrun as (b & _ & _ & _ & _ & _ & _ & _ & _ & _ & _ & Hbase & _).
  rewrite Hbase. destruct (bk =? "peters") eqn:Hbk.
  - eapply tensor2_fun;
      [apply (scrub_nan_entries (peters_baseline_entries HN TG Tdisc Tli Tstab))|].
    intros t k _ _. cbv beta. unfold baseline_entry. rewrite Hbk.
    unfold peters_num_entry, peters_den_entry, weight, fdiv.
    set (den := big_sum _ _). set (num := big_sum _ _).
    destruct (Req_EM_T den 0) as [Hden|Hden]; [|reflexivity].
    assert (Hnum : num = 0).
    { unfold num. unfold den in Hden.
      apply (peters_ratio_zero (fun n => entry3 (l_G l) n t k)
               (fun n => entry2 (l_disc_rewards l) n t)
               (fun n => exp (2 * (entry2 (l_log_iws l) n t - nth n (l_stabilizers l) 0)))).
      - intros n _. apply exp_pos.
      - exact Hden. }
    destruct (Req_EM_T num 0) as [_|Hne]; [reflexivity|contradiction].
  - assert (Thd : tensor2 (horizon (l_mask l)) (param_dim policy) (entry3 (l_G l) 0)
                          (hd [] (l_G l))).
    { replace (hd [] (l_G l)) with (nth 0 (l_G l) []) by (destruct (l_G l); reflexivity).
      apply (indexed_nth [] TG). lia. }
    eapply tensor2_fun; [apply (scrub_nan_entries (zeros_like_entries Thd))|].
    intros t k _ _. unfold baseline_entry. rewrite Hbk. reflexivity.
Qed.

(** The per-trajectory estimates and their mean, entry by entry. *)
Lemma samples_tensor batch disc policy target bk theta l theta' :
  estimator_body batch disc policy target bk theta = (Ok l, theta') ->
  tensor2 (List.length batch) (param_dim policy)
    (fun n k => Fin (sample_entry bk (List.length batch) (horizon (l_mask l)) (l_mask l)
                       (l_G l) (l_disc_rewards l) (l_log_iws l) (l_stabilizers l) n k))
    (l_samples l).
Proof.
  intros Hrun. pose proof (baseline_tensor _ _ _ _ _ _ Hrun) as Tbase.
  destruct (estimator_body_tensors _ _ _ _ _ _ Hrun)
    as (HN & HH & Tmask & Tdisc & Tsc & TG & Tb & Tt & Tli & Tstab).
  apply estimator_body_locals in Hrun
    as (b & _ & _ & _ & _ & _ & _ & _ & _ & _ & _ & _ & Hval & Hsam & _).
  rewrite Hsam, Hval.
  eapply tensor2_fun;
    [apply (combine_samples_entries HH TG (sub_unsqueeze_entries Tdisc Tbase) Tmask Tli)|].
  intros n k _ _. cbv beta. unfold sample_entry.
  apply fbig_sum_fin; [exact HH|]. intros t _. reflexivity.
Qed.






(** C10: the value returned and the parameters left behind are those of the
    program with the two lines computing [n_k] removed, on every input. *)
Theorem n_k_is_never_read batch disc policy target bk res theta :
  _shallow_off_gpomdp_estimator batch disc policy target bk res theta
  = _shallow_off_gpomdp_estimator_without_n_k batch disc policy target bk res theta.
Proof.
  unfold _shallow_off_gpomdp_estimator, _shallow_off_gpomdp_estimator_without_n_k.
  unfold estimator_body, estimator_body_without_n_k, bind.
  destruct (lift (unpack batch) theta) as [[b|e] th]; reflexivity.
Qed.

(** A baseline kind other than 'peters' and 'zero' runs the estimator as
    'zero' does up to the baseline, and raises where 'zero' would go on. *)
Lemma estimator_body_unsupported batch disc policy target bk theta :
  (bk =? "peters") = false -> (bk =? "zero") = false ->
  estimator_body batch disc policy target bk theta
  = match estimator_body batch disc policy target "zero" theta with
    | (Ok _, th) => (Raise NotImplementedError, th)
    | (Raise e, th) => (Raise e, th)
    end.
Proof.
  intros Hp Hz.
  unfold estimator_body, bind, lift, score, log_pdf, get_flat, set_from_flat, ret, raise.
  rewrite Hp, Hz. simpl.
  destruct (unpack batch) as [b|e]; [|reflexivity].
  destruct (check_shapes b) as [[]|e]; [|reflexivity].
  destruct (over_steps (score_checked policy theta) _ _) as [scores|e]; [|reflexivity].
  destruct (over_steps (log_pdf_step policy theta) _ _) as [blp|e]; [|reflexivity].
  destruct (over_steps (log_pdf_step policy target) _ _) as [tlp|e]; [|reflexivity].
  destruct (Torch.max_1 _) as [stab|e]; reflexivity.
Qed.

(** C3 (as amended): a baseline kind other than 'peters' and 'zero' ('avg'
    included) never yields an estimate: the call raises, and what it raises
    is NotImplementedError, with the behavior parameters restored, whenever
    the same call with 'zero' returns an estimate.  A result mode other than
    'samples' is not an error: it returns what 'mean' returns. *)
Theorem unsupported_baseline_raises_and_other_modes_mean
  batch disc policy target bk res bk' res' theta :
  (bk =? "peters") = false -> (bk =? "zero") = false ->
  (res =? "samples") = false ->
  (exists e, fst (_shallow_off_gpomdp_estimator batch disc policy target bk res' theta)
             = Raise e) /\
  (forall l th,
     estimator_body batch disc policy target "zero" theta = (Ok l, th) ->
     _shallow_off_gpomdp_estimator batch disc policy target bk res' theta
     = (Raise NotImplementedError, theta)) /\
  _shallow_off_gpomdp_estimator batch disc policy target bk' res theta
  = _shallow_off_gpomdp_estimator batch disc policy target bk' "mean" theta.
Proof.
  intros Hp Hz Hr.
  assert (Hrun : _shallow_off_gpomdp_estimator batch disc policy target bk res' theta
                 = match estimator_body batch disc policy target "zero" theta with
                   | (Ok _, th) => (Raise NotImplementedError, th)
                   | (Raise e, th) => (Raise e, th)
                   end).
  { unfold _shallow_off_gpomdp_estimator, bind.
    rewrite (estimator_body_unsupported batch disc policy target bk theta Hp Hz).
    destruct (estimator_body batch disc policy target "zero" theta) as [[l|e] th];
      reflexivity. }
  split; [|split].
  - rewrite Hrun.
    destruct (estimator_body batch disc policy target "zero" theta) as [[l|e] th];
      simpl; eauto.
  - intros l th Hzero. rewrite Hrun, Hzero.
    apply estimator_body_locals in Hzero
      as (b & _ & _ & _ & _ & _ & _ & _ & _ & _ & _ & _ & _ & _ & -> & _).
    reflexivity.
  - unfold _shallow_off_gpomdp_estimator. rewrite Hr. reflexivity.
Qed.

(** The least arity of a batch is at most the arity of each of its tuples. *)
Lemma zip_arity_le batch tr : In tr batch -> (zip_arity batch <= arity tr)%nat.
Proof.
  destruct batch as [|tr0 rest]; [intros []|].
  unfold zip_arity. intros [<-|Hin].
  - clear. induction rest as [|x rest IH]; cbn [fold_right map]; lia.
  - induction rest as [|x rest IH]; [destruct Hin|].
    cbn [fold_right map]. destruct Hin as [<-|Hin]; [lia|]. specialize (IH Hin). lia.
Qed.

Lemma unpack_short batch :
  (zip_arity batch < 5)%nat -> exists e, unpack batch = Raise e.
Proof.
  intros Hlt. unfold unpack.
  destruct batch as [|tr rest]; [eauto|].
  destruct (stack (map (@states _ _ _) (tr :: rest))); cbn [exc_bind]; [|eauto].
  destruct (stack (map (@actions _ _ _) (tr :: rest))); cbn [exc_bind]; [|eauto].
  destruct (stack (map (@rewards _ _ _) (tr :: rest))); cbn [exc_bind]; [|eauto].
  destruct (stack (map (@mask _ _ _) (tr :: rest))); cbn [exc_bind]; [|eauto].
  apply Nat.ltb_lt in Hlt. rewrite Hlt. eauto.
Qed.

Lemma unpack_fields batch b :
  unpack batch = Ok b ->
  b = {| st_states := map (@states _ _ _) batch;
         st_actions := map (@actions _ _ _) batch;
         st_rewards := map (@rewards _ _ _) batch;
         st_mask := map (@mask _ _ _) batch |}.
Proof.
  unfold unpack. destruct batch as [|tr rest]; [discriminate|].
  set (batch := tr :: rest).
  destruct (stack (map (@states _ _ _) batch)) as [st|] eqn:Hst;
    [|cbn [exc_bind]; discriminate].
  destruct (stack (map (@actions _ _ _) batch)) as [ac|] eqn:Hac;
    [|cbn [exc_bind]; discriminate].
  destruct (stack (map (@rewards _ _ _) batch)) as [rw|] eqn:Hrw;
    [|cbn [exc_bind]; discriminate].
  destruct (stack (map (@mask _ _ _) batch)) as [mk|] eqn:Hmk;
    [|cbn [exc_bind]; discriminate].
  cbn [exc_bind].
  destruct (Nat.ltb (zip_arity batch) 5); [discriminate|].
  match goal with |- exc_bind ?c _ = _ -> _ => destruct c end; cbn [exc_bind];
    [|discriminate].
  destruct (Nat.ltb 5 (zip_arity batch)).
  { match goal with |- exc_bind ?c _ = _ -> _ => destruct c end; cbn [exc_bind];
      discriminate. }
  intros Hb; inversion Hb; subst b; clear Hb.
  apply stack_ok in Hst as (-> & _), Hac as (-> & _), Hrw as (-> & _), Hmk as (-> & _).
  reflexivity.
Qed.

(** When the trailing field is there, what it holds does not matter: two
    batches that pass line 45 and agree on the four leading fields give the
    same run. *)
Lemma trailing_field_is_ignored batch batch' b b' disc policy target bk res theta :
  unpack batch = Ok b -> unpack batch' = Ok b' ->
  map (@states _ _ _) batch = map (@states _ _ _) batch' ->
  map (@actions _ _ _) batch = map (@actions _ _ _) batch' ->
  map (@rewards _ _ _) batch = map (@rewards _ _ _) batch' ->
  map (@mask _ _ _) batch = map (@mask _ _ _) batch' ->
  _shallow_off_gpomdp_estimator batch disc policy target bk res theta
  = _shallow_off_gpomdp_estimator batch' disc policy target bk res theta.
Proof.
  intros Hu Hu' Hs Ha Hr Hm.
  assert (Hb : b = b').
  { rewrite (unpack_fields _ Hu), (unpack_fields _ Hu'), Hs, Ha, Hr, Hm. reflexivity. }
  unfold _shallow_off_gpomdp_estimator, estimator_body, bind, lift.
  rewrite Hu, Hu', Hb. reflexivity.
Qed.

(** C9: what the source does on a tuple of exactly four fields.  As soon as
    one trajectory of the batch has no trailing field, the five-name
    assignment of line 45 fails: the call raises, it returns no estimate, and
    the policy parameters are untouched. *)
Theorem four_field_batch_raises batch disc policy target bk res theta tr :
  In tr batch -> extras tr = [] ->
  exists e, _shallow_off_gpomdp_estimator batch disc policy target bk res theta
            = (Raise e, theta).
Proof.
  intros Hin Hex.
  destruct (unpack_short batch) as [e He].
  { pose proof (zip_arity_le batch tr Hin) as Hle. unfold arity in Hle.
    rewrite Hex in Hle. simpl in Hle. lia. }
  exists e.
  unfold _shallow_off_gpomdp_estimator, estimator_body, bind, lift. rewrite He. reflexivity.
Qed.


Lemma Forall2_nth_error {T U : Type} (R : T -> U -> Prop) x y n a b :
  Forall2 R x y -> nth_error x n = Some a -> nth_error y n = Some b -> R a b.
Proof.
  intros HF. revert n. induction HF as [|u v x y Huv HF IH]; intros [|n]; simpl;
    try discriminate.
  - intros Ha Hb. inversion Ha; inversion Hb; subst. exact Huv.
  - apply IH.
Qed.

(** With equal target and behavior log-densities the cumulative log-weights,
    the stabilizers and hence the two weight tensors are trivial. *)
Lemma unit_weights N H lp stab :
  (1 <= H)%nat ->
  tensor2 N H (entry2 lp) lp ->
  Torch.max_1 (Torch.cumsum_1 (Torch.sub lp lp)) = Ok stab ->
  tensor2 N H (fun _ _ => 0) (Torch.cumsum_1 (Torch.sub lp lp)) /\
  tensor1 N (fun _ => 0) stab.
Proof.
  intros HH Tlp Hmax.
  assert (Tli : tensor2 N H (fun _ _ => 0) (Torch.cumsum_1 (Torch.sub lp lp))).
  { eapply tensor2_fun; [apply (log_iws_entries Tlp Tlp)|].
    intros n t _ _. apply big_sum_zero. intros i _. ring. }
  split; [exact Tli|].
  pose proof (max_1_spec _ Hmax) as Hspec. split.
  - rewrite <- (Forall2_length Hspec). apply Tli.
  - intros n s Hs.
    destruct (nth_error (Torch.cumsum_1 (Torch.sub lp lp)) n) as [row|] eqn:Hrow.
    + destruct (Forall2_nth_error _ Hspec Hrow Hs) as [Hin _].
      apply In_nth_error in Hin as [t Ht].
      exact (proj2 (proj2 Tli n row Hrow) t s Ht).
    + apply nth_error_None in Hrow. rewrite (Forall2_length Hspec) in Hrow.
      apply nth_error_None in Hrow. congruence.
Qed.

Lemma on_policy_baseline_entries N H m g r G disc_rewards :
  (1 <= N)%nat ->
  tensor3 N H m g G -> tensor2 N H r disc_rewards ->
  tensor2 H m
    (fun t k => fdiv (Fin (big_sum (fun n => g n t k ^ 2 * r n t) N))
                     (Fin (big_sum (fun n => g n t k ^ 2) N)))
    (on_policy_baseline G disc_rewards).
Proof.
  intros HN HG Hr. unfold on_policy_baseline, Torch.div.
  apply (tensor2_map2 (fun p q => fdiv (Fin p) (Fin q))
           (sum_0_3d_entries (tensormat_entries (square_entries HG) Hr) HN)
           (sum_0_3d_entries (square_entries HG) HN)).
Qed.

Lemma peters_baseline_unit_weights N H m G disc_rewards log_iws stabilizers :
  (1 <= N)%nat ->
  tensor3 N H m (entry3 G) G -> tensor2 N H (entry2 disc_rewards) disc_rewards ->
  tensor2 N H (fun _ _ => 0) log_iws -> tensor1 N (fun _ => 0) stabilizers ->
  peters_baseline G disc_rewards log_iws stabilizers = on_policy_baseline G disc_rewards.
Proof.
  intros HN TG Tr Tli Ts.
  eapply tensor2_eq; [|apply (on_policy_baseline_entries HN TG Tr)].
  eapply tensor2_fun; [apply (peters_baseline_entries HN TG Tr Tli Ts)|].
  intros t k _ _. cbv beta.
  replace (2 * (0 - 0)) with 0 by ring. rewrite exp_0.
  f_equal; f_equal; apply big_sum_ext; intros n _; ring.
Qed.

Lemma mask_times_unit_weights N H mask log_iws :
  tensor2 N H (entry2 mask) mask -> tensor2 N H (fun _ _ => 0) log_iws ->
  Torch.mul mask (Torch.exp log_iws) = mask.
Proof.
  intros Tm Tli. eapply tensor2_eq; [|exact Tm].
  eapply tensor2_fun; [apply (tensor2_map2 Rmult Tm (tensor2_map exp Tli))|].
  intros n t _ _. cbv beta. rewrite exp_0. ring.
Qed.

(** C4: when the target parameters are the policy's current parameters, every
    cumulative log-weight is 0 and every importance weight is 1, the
    per-trajectory estimates are those of the on-policy estimator, and so is
    the value returned. *)
Theorem equal_parameters_reduce_to_on_policy
  batch disc policy target bk res theta l theta' :
  target = theta ->
  estimator_body batch disc policy target bk theta = (Ok l, theta') ->
  Forall (Forall (fun x => x = 0)) (l_log_iws l) /\
  Forall (Forall (fun w => w = 1)) (Torch.exp (l_log_iws l)) /\
  on_policy_samples batch disc policy bk theta = (Ok (l_samples l), theta) /\
  _shallow_off_gpomdp_estimator batch disc policy target bk res theta
  = on_policy_estimator batch disc policy bk res theta.
Proof.
  intros -> Hrun.
  destruct (estimator_body_tensors _ _ _ _ _ _ Hrun)
    as (HN & HH & Tmask & Tdisc & Tsc & TG & Tb & Tt & Tli & Tstab).
  pose proof Hrun as Hloc.
  apply estimator_body_locals in Hloc
    as (b & Hu & Hc & Hmask & Hdisc & Hs & Hb & Ht & HG & Hli & Hmax & Hbase & Hval
        & Hsam & -> & Hkind).
  assert (Heq : l_target_logps l = l_behavioral_logps l) by congruence.
  rewrite Heq in Hli. rewrite Hli in Hmax.
  destruct (unit_weights HH Tb Hmax) as [Tzero Tszero]. rewrite <- Hli in Tzero.
  assert (Hon : on_policy_samples batch disc policy bk theta = (Ok (l_samples l), theta)).
  { unfold on_policy_samples, bind, lift, score, ret, raise.
    rewrite Hu, Hc, Hs. rewrite <- Hmask, <- Hdisc, <- HG.
    assert (Hsamples : l_samples l
                       = Torch.fsum_1 (ftensormat (Torch.fmul_3d (l_G l) (l_values l))
                                         (l_mask l))).
    { rewrite Hsam. unfold combine_samples.
      rewrite (mask_times_unit_weights Tmask Tzero). reflexivity. }
    rewrite Hsamples, Hval, Hbase.
    destruct (bk =? "peters") eqn:Hp.
    - rewrite (peters_baseline_unit_weights HN TG Tdisc Tzero Tszero). reflexivity.
    - destruct (bk =? "zero") eqn:Hz; [reflexivity|].
      destruct Hkind; discriminate. }
  split; [apply (tensor2_Forall (fun x => x = 0) Tzero); reflexivity|].
  split; [apply (tensor2_Forall (fun w => w = 1) (tensor2_map exp Tzero));
          intros _ _; apply exp_0|].
  split; [exact Hon|].
  unfold _shallow_off_gpomdp_estimator, on_policy_estimator, bind.
  rewrite Hrun, Hon. reflexivity.
Qed.

(** ** Padding *)










(** The derived locals of a successful run, entry by entry. *)
Lemma estimator_body_entries batch disc policy target bk theta l theta' n t :
  estimator_body batch disc policy target bk theta = (Ok l, theta') ->
  (n < List.length batch)%nat -> (t < horizon (l_mask l))%nat ->
  entry2 (l_disc_rewards l) n t
  = entry2 (map (@rewards _ _ _) batch) n t * disc ^ t /\
  entry2 (l_log_iws l) n t
  = big_sum (fun s => entry2 (l_target_logps l) n s - entry2 (l_behavioral_logps l) n s)
            (S t) /\
  forall k, (k < param_dim policy)%nat ->
    entry3 (l_G l) n t k
    = big_sum (fun s => entry3 (l_scores l) n s k * entry2 (l_mask l) n s) (S t).
Proof.
  intros Hrun Hn Ht.
  destruct (estimator_body_tensors _ _ _ _ _ _ Hrun)
    as (HN & HH & Tmask & Tdisc & Tsc & TG & Tb & Tt & Tli & Tstab).
  apply estimator_body_locals in Hrun
    as (b & Hu & Hc & Hmask & Hdisc & Hs & Hb & Htl & HG & Hli & _).
  destruct (unpack_shapes _ Hu Hc)
    as (N & H & _ & HNb & _ & _ & Hrw & Hmk & _ & _ & Srw & Smk).
  assert (HH' : horizon (l_mask l) = H).
  { rewrite Hmask. apply (shape_horizon Smk). lia. }
  rewrite HH' in *. subst N. split; [|split].
  - rewrite Hdisc, <- Hrw. unfold entry2 at 1.
    apply (tensor2_nth 0 (discount_entries disc (shape_tensor2 Srw)) Hn Ht).
  - rewrite Hli. unfold entry2 at 1.
    apply (tensor2_nth 0 (log_iws_entries Tt Tb) Hn Ht).
  - intros k Hk. rewrite HG. unfold entry3 at 1.
    apply (tensor3_nth 0 (G_entries Tsc Tmask) Hn Ht Hk).
Qed.





(** C8 (as amended): the stabilizer of a trajectory is the maximum over time
    of its cumulative log-weights: it is one of them and bounds all of them.
    So every stabilized difference is at most 0, and its float32 exponential,
    like the baseline weight exp(2 (log_iw - stabilizer)), is a number of
    [0,1]: never above 1, equal to 1 at the maximum, and 0 where it
    underflows. *)
Theorem stabilizer_is_the_row_maximum batch disc policy target bk theta l theta' :
  estimator_body batch disc policy target bk theta = (Ok l, theta') ->
  Forall2 (fun row s =>
             In s row /\ exp32 (s - s) = Fin 1 /\
             Forall (fun v => v <= s /\ v - s <= 0 /\
                              (exists w, exp32 (v - s) = Fin w /\ 0 <= w <= 1) /\
                              (exists w, exp32 (2 * (v - s)) = Fin w /\ 0 <= w <= 1))
                    row)
          (l_log_iws l) (l_stabilizers l).
Proof.
  intros Hrun.
  apply estimator_body_locals in Hrun
    as (b & _ & _ & _ & _ & _ & _ & _ & _ & _ & Hmax & _).
  eapply Forall2_impl; [|apply (max_1_spec _ Hmax)].
  intros row s [Hin Hall]. split; [exact Hin|].
  split; [replace (s - s) with 0 by ring; apply exp32_0|].
  eapply Forall_impl; [|exact Hall]. intros v Hv. cbv beta in Hv.
  split; [exact Hv|]. split; [lra|]. split; apply exp32_nonpos; lra.
Qed.




End Runs.

(** * Runs on the concrete batches *)

Module ExampleRuns.
Import Examples.

(** Normal forms of the real entries that the runs below produce. *)

Ltac real_entries :=
  repeat match goal with
         | |- context [hd 0 ?th * 0] => replace (hd 0 th * 0) with 0 by ring
         | |- context [0 * 0] => replace (0 * 0) with 0 by ring
         | |- context [0 - 0] => replace (0 - 0) with 0 by ring
         | |- context [0 + 0] => replace (0 + 0) with 0 by ring
         | |- context [2 * 0] => replace (2 * 0) with 0 by ring
         | |- context [Rmax 0 0] =>
             replace (Rmax 0 0) with 0 by (symmetry; apply Rmax_left; lra)
         | |- context [exp 0] => rewrite exp_0
         end.


(** Congruence down to the real entries, which are left as goals. *)
Ltac entries :=
  repeat (lazymatch goal with
          | |- @eq R _ _ => fail
          | |- _ => f_equal
          end).

(** The scenario of the spec's section 8, run with equal behavior and target
    parameters and the zero baseline. *)
Lemma scenario_body theta :
  estimator_body scenario (1 / 2) linear_policy theta "zero" theta
  = (Ok {| l_mask := [[1; 1]];
           l_disc_rewards := [[1; 1 / 2]];
           l_scores := [[[1]; [1]]];
           l_G := [[[1]; [2]]];
           l_behavioral_logps := [[0; 0]];
           l_target_logps := [[0; 0]];
           l_log_iws := [[0; 0]];
           l_stabilizers := [0];
           l_baseline := [[Fin 0]; [Fin 0]];
           l_values := [[[Fin 1]; [Fin (1 / 2)]]];
           l_samples := [[Fin 2]] |}, theta).
Proof.
  cbn. unfold ret. real_entries. entries; lra.
Qed.

Lemma mean_of_one (x : R) : Torch.fmean_0 [[Fin x]] = [Fin x].
Proof.
  unfold Torch.fmean_0. simpl.
  destruct (Req_EM_T 1 0) as [H|_]; [lra|]. entries. field.
Qed.


(** C3, refuted as stated: the result mode 'median' is neither 'mean' nor
    'samples', and the call returns the mean estimate instead of raising. *)
Lemma unknown_result_mode_returns_mean :
  _shallow_off_gpomdp_estimator scenario (1 / 2) linear_policy [0] "zero" "median" [0]
  = (Ok (Mean [Fin 2]), [0]).
Proof.
  unfold _shallow_off_gpomdp_estimator, bind. rewrite scenario_body. simpl.
  unfold ret. rewrite mean_of_one. reflexivity.
Qed.

(** The scenario with baseline kind 'avg', and with result mode 'median'. *)
Lemma unsupported_baseline_raises_and_other_modes_mean_witness :
  (exists e, fst (_shallow_off_gpomdp_estimator scenario (1 / 2) linear_policy [0]
                    "avg" "mean" [0]) = Raise e) /\
  _shallow_off_gpomdp_estimator scenario (1 / 2) linear_policy [0] "avg" "mean" [0]
  = (Raise NotImplementedError, [0]) /\
  _shallow_off_gpomdp_estimator scenario (1 / 2) linear_policy [0] "zero" "median" [0]
  = _shallow_off_gpomdp_estimator scenario (1 / 2) linear_policy [0] "zero" "mean" [0].
Proof.
  destruct (@unsupported_baseline_raises_and_other_modes_mean R R R scenario (1 / 2)
              linear_policy [0] "avg" "median" "zero" "mean" [0] eq_refl eq_refl eq_refl)
    as (Hraise & Hkind & Hmode).
  split; [exact Hraise|]. split; [|exact Hmode].
  exact (Hkind _ _ (scenario_body [0])).
Defined.

(** The scenario as a four-field tuple. *)
Lemma four_field_batch_raises_witness :
  exists e, _shallow_off_gpomdp_estimator scenario_four_fields (1 / 2) linear_policy [0]
              "zero" "mean" [0] = (Raise e, [0]).
Proof.
  apply (@four_field_batch_raises R R R scenario_four_fields (1 / 2) linear_policy [0]
           "zero" "mean" [0] (Build_trajectory [0; 0] [1; 1] [1; 1] [1; 1] [])).
  - simpl. left. reflexivity.
  - reflexivity.
Defined.

(** Another content of the trailing field, same run. *)
Lemma scenario_trailing_field_ignored :
  _shallow_off_gpomdp_estimator scenario_other_extra (1 / 2) linear_policy [0]
    "zero" "mean" [0]
  = _shallow_off_gpomdp_estimator scenario (1 / 2) linear_policy [0] "zero" "mean" [0].
Proof.
  eapply trailing_field_is_ignored; reflexivity.
Qed.


(** The stabilizer of the scenario: log_iw = [0,0], maximum 0. *)
Lemma stabilizer_is_the_row_maximum_witness :
  Forall2 (fun row s =>
             In s row /\ exp32 (s - s) = Fin 1 /\
             Forall (fun v => v <= s /\ v - s <= 0 /\
                              (exists w, exp32 (v - s) = Fin w /\ 0 <= w <= 1) /\
                              (exists w, exp32 (2 * (v - s)) = Fin w /\ 0 <= w <= 1))
                    row)
          [[0; 0]] [0].
Proof.
  apply (@stabilizer_is_the_row_maximum R R R scenario (1 / 2) linear_policy [0] "zero" [0]
           _ [0] (scenario_body [0])).
Defined.

(** C8, refuted as stated: with behavior parameter 0 and target parameter
    -200 the cumulative log-weights of the one trajectory are [0, -200] and
    its stabilizer is 0; the stabilized exponential of the second step is
    exp(-200), which is exactly 0 in float32, outside (0,1]. *)
Lemma stabilized_exponential_underflows_to_zero :
  exists l,
    estimator_body Batches.far_step 1 linear_policy [-200] "zero" [0] = (Ok l, [0]) /\
    l_log_iws l = [[0; -200]] /\
    l_stabilizers l = [0] /\
    exp32 (entry2 (l_log_iws l) 0 1 - nth 0 (l_stabilizers l) 0) = Fin 0 /\
    forall w, exp32 (entry2 (l_log_iws l) 0 1 - nth 0 (l_stabilizers l) 0) = Fin w ->
              ~ (0 < w <= 1).
Proof.
  eexists. split; [cbn; reflexivity|].
  cbn [l_log_iws l_stabilizers]. unfold entry2. cbn [nth].
  assert (Hmax : Rmax (-200 * 0 - 0 * 0) (-200 * 0 - 0 * 0 + (-200 * 1 - 0 * 1)) = 0)
    by (rewrite Rmax_left by lra; lra).
  rewrite Hmax. split; [entries; lra|]. split; [reflexivity|].
  assert (Hzero : exp32 (-200 * 0 - 0 * 0 + (-200 * 1 - 0 * 1) - 0) = Fin 0)
    by (apply exp32_underflow; lra).
  split; [exact Hzero|]. intros w Hw. rewrite Hzero in Hw. injection Hw as <-. lra.
Qed.






(** The scenario, whose target parameters are the current ones. *)
Lemma equal_parameters_reduce_to_on_policy_witness :
  Forall (Forall (fun x => x = 0)) [[0; 0]] /\
  Forall (Forall (fun w => w = 1)) (Torch.exp [[0; 0]]) /\
  on_policy_samples scenario (1 / 2) linear_policy "zero" [0] = (Ok [[Fin 2]], [0]) /\
  _shallow_off_gpomdp_estimator scenario (1 / 2) linear_policy [0] "zero" "mean" [0]
  = on_policy_estimator scenario (1 / 2) linear_policy "zero" "mean" [0].
Proof.
  apply (@equal_parameters_reduce_to_on_policy R R R scenario (1 / 2) linear_policy [0]
           "zero" "mean" [0] _ [0] eq_refl (scenario_body [0])).
Defined.










(** The same padding with target parameter 200: the cumulative log-weight of
    the second trajectory at the appended step is 200, its exponential is
    infinite in float32, and the factor of that masked step in line 70 is
    0 times an infinity, not-a-number. *)
Lemma masked_step_after_overflow_is_nan :
  exists l',
    estimator_body (pad_batch short_batch one_step) 1 offset_policy [200] "zero" [0]
    = (Ok l', [0]) /\
    entry2 (l_mask l') 1 2 = 0 /\
    exp32 (entry2 (l_log_iws l') 1 2) = Inf true /\
    fmul (Fin (entry2 (l_mask l') 1 2)) (exp32 (entry2 (l_log_iws l') 1 2)) = NaN.
Proof.
  eexists. split; [cbn; reflexivity|].
  cbn [l_mask l_log_iws]. unfold entry2. cbn [nth].
  split; [reflexivity|].
  match goal with
  | |- exp32 ?x = _ /\ _ =>
      assert (Hinf : exp32 x = Inf true) by (apply exp32_overflow; lra)
  end.
  split; [exact Hinf|]. apply masked_factor, Hinf.
Qed.


End ExampleRuns.

(** * Further properties of the estimator *)

Section Coverage.

Variables state action extra : Type.
Implicit Types (batch : list (trajectory state action extra)) (policy : Policy state action).

(** X3: with the zero baseline, a trajectory whose mask is zero at every
    step contributes the zero vector to the per-trajectory result, whatever
    its rewards and scores, as long as the exponential of line 70 does not
    overflow at its steps: there the factor mask * exp(log_iws) is 0 (0 times
    an infinity would be not-a-number). *)
Theorem fully_masked_trajectory_has_zero_sample
  batch disc policy target theta l theta' n tr k :
  estimator_body batch disc policy target "zero" theta = (Ok l, theta') ->
  nth_error batch n = Some tr ->
  Forall (fun m => m = 0) (mask tr) ->
  (forall t, (t < horizon (l_mask l))%nat ->
     exp32 (entry2 (l_log_iws l) n t) <> Inf true) ->
  (k < param_dim policy)%nat ->
  fentry2 (l_samples l) n k = Some (Fin 0) /\
  forall t, (t < horizon (l_mask l))%nat ->
    fmul (Fin (entry2 (l_mask l) n t)) (exp32 (entry2 (l_log_iws l) n t)) = Fin 0.
Proof.
  intros Hrun Htr Hmask Hfinite Hk.
  assert (Hn : (n < List.length batch)%nat) by (apply nth_error_Some; congruence).
  assert (Hm : forall t, entry2 (l_mask l) n t = 0).
  { intros t. pose proof Hrun as Hloc.
    apply estimator_body_locals in Hloc as (b & Hu & _ & Hm & _).
    rewrite Hm, (unpack_fields _ Hu). cbn [st_mask]. unfold entry2.
    rewrite (nth_error_nth _ _ [] (map_nth_error _ _ _ Htr)).
    destruct (nth_in_or_default t (mask tr) 0) as [Hin|Hd]; [|exact Hd].
    apply (proj1 (Forall_forall _ _) Hmask _ Hin). }
  split.
  - rewrite (tensor2_fentry (samples_tensor _ _ _ _ _ _ Hrun) Hn Hk).
    do 2 f_equal. unfold sample_entry. apply big_sum_zero. intros t _.
    rewrite Hm. ring.
  - intros t Ht. rewrite Hm. apply masked_factor, Hfinite, Ht.
Qed.

Lemma exc_map_all_ok {T U : Type} (h : T -> exc U) (c : T -> U) l :
  (forall x, In x l -> h x = Ok (c x)) -> exc_map h l = Ok (map c l).
Proof.
  induction l as [|x l IH]; intros Hl; simpl; [reflexivity|].
  rewrite (Hl x (or_introl eq_refl)). cbn [exc_bind].
  rewrite IH by (intros y Hy; apply Hl; right; exact Hy). reflexivity.
Qed.


(** X5: a call that leaves [baselinekind] at its default never returns an
    estimate, whatever the other arguments: without [shallow=True] it raises
    at once, and with it the default 'avg' is refused by the shallow
    estimator. *)
Theorem default_baseline_never_returns
  batch disc policy target result shallow theta :
  exists e,
    fst (off_gpomdp_estimator_kw batch disc policy target None result shallow theta)
    = Raise e.
Proof.
  unfold off_gpomdp_estimator_kw, off_gpomdp_estimator.
  destruct shallow as [[|]|]; [|eexists; reflexivity|eexists; reflexivity].
  unfold _shallow_off_gpomdp_estimator, bind.
  rewrite (estimator_body_unsupported batch disc policy target "avg" theta eq_refl eq_refl).
  destruct (estimator_body batch disc policy target "zero" theta) as [[l|e] th];
    eexists; reflexivity.
Qed.

(** X6: the cumulative score does not move on a masked step: where the mask
    of step t+1 is zero, G[n,t+1,k] = G[n,t,k], so a trajectory that has ended
    keeps the cumulative score of its last valid step. *)
Theorem cumulative_score_is_constant_on_masked_steps
  batch disc policy target bk theta l theta' n t k :
  estimator_body batch disc policy target bk theta = (Ok l, theta') ->
  (n < List.length batch)%nat -> (S t < horizon (l_mask l))%nat ->
  (k < param_dim policy)%nat ->
  entry2 (l_mask l) n (S t) = 0 ->
  entry3 (l_G l) n (S t) k = entry3 (l_G l) n t k.
Proof.
  intros Hrun Hn Ht Hk Hm.
  destruct (@estimator_body_entries _ _ _ _ _ _ _ _ _ _ _ n (S t) Hrun Hn Ht) as (_ & _ & HG1).
  destruct (@estimator_body_entries _ _ _ _ _ _ _ _ _ _ _ n t Hrun Hn) as (_ & _ & HG0); [lia|].
  rewrite (HG1 k Hk), (HG0 k Hk).
  change (big_sum ?f (S (S t))) with (big_sum f (S t) + f (S t)).
  cbv beta. rewrite Hm. ring.
Qed.

(** ** Returns, performance and average horizon *)

Lemma unpack_arity batch b : unpack batch = Ok b -> zip_arity batch = 5%nat.
Proof.
  intros Hu. destruct (Nat.lt_ge_cases (zip_arity batch) 5) as [Hlt|Hge].
  - destruct (unpack_short _ Hlt) as [e He]. congruence.
  - destruct (Nat.eq_dec (zip_arity batch) 5) as [E|NE]; [exact E|]. exfalso.
    assert (Hgt : Nat.ltb 5 (zip_arity batch) = true) by (apply Nat.ltb_lt; lia).
    assert (Hnlt : Nat.ltb (zip_arity batch) 5 = false) by (apply Nat.ltb_ge; lia).
    unfold unpack in Hu. destruct batch as [|tr rest]; [discriminate|].
    rewrite Hgt, Hnlt in Hu.
    repeat match type of Hu with
           | exc_bind ?c _ = _ => destruct c; cbn [exc_bind] in Hu; try discriminate
           end.
Qed.

(** X9: the statistics of misc_utils and the estimator accept no batch in
    common: on a batch that the estimator's [unpack] takes apart into five
    fields, [returns], [performance] and [avg_horizon], which take each tuple
    apart into four names, raise ValueError. *)
Theorem estimator_batches_are_refused_by_the_statistics batch b gamma :
  unpack batch = Ok b ->
  returns batch gamma = Raise ValueError /\
  performance batch gamma = Raise ValueError /\
  avg_horizon batch = Raise ValueError.
Proof.
  intros Hu. pose proof (unpack_arity _ Hu) as Ha.
  destruct batch as [|tr rest]; [discriminate|].
  assert (Htr : four_fields tr = Raise ValueError).
  { pose proof (@zip_arity_le _ _ _ (tr :: rest) tr (or_introl eq_refl)).
    unfold four_fields. destruct (Nat.eqb_spec (arity tr) 4); [lia|reflexivity]. }
  unfold performance, avg_horizon, returns. cbn [exc_map]. rewrite Htr. cbn [exc_bind].
  auto.
Qed.

Lemma four_fields_ok (tr : trajectory state action extra) :
  arity tr = 4%nat -> four_fields tr = Ok tr.
Proof. intros H. unfold four_fields. rewrite H. reflexivity. Qed.

Lemma returns_of_four_fields batch gamma :
  (forall tr, In tr batch -> arity tr = 4%nat) ->
  returns batch gamma
  = Ok (map (fun tr => sum_all (discount_1d (rewards tr) gamma)) batch).
Proof.
  intros Hb. unfold returns. apply exc_map_all_ok. intros tr Htr.
  rewrite (four_fields_ok (Hb tr Htr)). reflexivity.
Qed.

Lemma avg_horizon_of_four_fields batch :
  (forall tr, In tr batch -> arity tr = 4%nat) ->
  avg_horizon batch = Ok (mean_all (map (fun tr => sum_all (mask tr)) batch)).
Proof.
  intros Hb. unfold avg_horizon.
  rewrite (@exc_map_all_ok _ _ _ (fun tr => sum_all (mask tr)) batch); [reflexivity|].
  intros tr Htr. rewrite (four_fields_ok (Hb tr Htr)). reflexivity.
Qed.

Lemma mean_all_nonempty x :
  x <> [] -> mean_all x = Fin (sum_all x / INR (List.length x)).
Proof.
  intros Hx. unfold mean_all, fdiv.
  destruct (Req_EM_T (INR (List.length x)) 0) as [H0|_]; [|reflexivity].
  exfalso. destruct x as [|v x]; [congruence|].
  apply (not_0_INR (List.length (v :: x))); [simpl; lia|exact H0].
Qed.

Lemma mean_all_empty : mean_all [] = NaN.
Proof.
  unfold mean_all, fdiv. cbn [sum_all fold_right List.length INR].
  destruct (Req_EM_T 0 0) as [_|H]; [reflexivity|exfalso; apply H; reflexivity].
Qed.

Lemma sum_all_bounds lo hi x :
  Forall (fun v => lo <= v <= hi) x ->
  INR (List.length x) * lo <= sum_all x <= INR (List.length x) * hi.
Proof.
  induction 1 as [|v x Hv _ IH].
  - cbn [sum_all fold_right List.length INR]. lra.
  - change (sum_all (v :: x)) with (v + sum_all x).
    change (List.length (v :: x)) with (S (List.length x)). rewrite S_INR. lra.
Qed.

Lemma mean_all_bounds lo hi x :
  x <> [] -> Forall (fun v => lo <= v <= hi) x ->
  exists m, mean_all x = Fin m /\ lo <= m <= hi.
Proof.
  intros Hx Hb. exists (sum_all x / INR (List.length x)).
  split; [apply mean_all_nonempty, Hx|].
  pose proof (sum_all_bounds Hb) as [Hlo Hhi].
  assert (Hn : 0 < INR (List.length x)).
  { apply lt_0_INR. destruct x; [congruence|simpl; lia]. }
  split.
  - apply Rmult_le_reg_r with (INR (List.length x)); [exact Hn|].
    unfold Rdiv. rewrite Rmult_assoc, Rinv_l by lra. lra.
  - apply Rmult_le_reg_r with (INR (List.length x)); [exact Hn|].
    unfold Rdiv. rewrite Rmult_assoc, Rinv_l by lra. lra.
Qed.

Lemma myopic_sum rs t : (0 < t)%nat -> sum_all (discount_from t rs 0) = 0.
Proof.
  revert t. induction rs as [|r rs IH]; intros t Ht; cbn [discount_from]; [reflexivity|].
  change (sum_all (?a :: ?x)) with (a + sum_all x).
  rewrite IH by lia. rewrite pow_i by exact Ht. ring.
Qed.

(** X11: the two ends of the discount factor.  With gamma = 1 the return of
    a trajectory is the plain sum of its rewards; with gamma = 0 it is the
    first reward (0 ** 0 is 1), and 0 for a trajectory without steps. *)
Theorem undiscounted_and_myopic_returns batch :
  (forall tr, In tr batch -> arity tr = 4%nat) ->
  returns batch 1 = Ok (map (fun tr => sum_all (rewards tr)) batch) /\
  returns batch 0 = Ok (map (fun tr => hd 0 (rewards tr)) batch).
Proof.
  intros Hb. rewrite (returns_of_four_fields batch 1 Hb), (returns_of_four_fields batch 0 Hb).
  split; f_equal; apply map_ext; intros tr.
  - unfold discount_1d. rewrite discount_from_one. reflexivity.
  - unfold discount_1d. destruct (rewards tr) as [|r rs]; [reflexivity|].
    cbn [discount_from hd]. change (sum_all (?a :: ?x)) with (a + sum_all x).
    rewrite myopic_sum by lia. cbn [pow]. ring.
Qed.

(** X13: [performance] and [avg_horizon] do not raise on the empty batch, where
    [returns] is the empty list: they return not-a-number there, and on
    four-field batches nowhere else. *)
Theorem statistics_are_nan_exactly_on_the_empty_batch batch gamma :
  (forall tr, In tr batch -> arity tr = 4%nat) ->
  (performance batch gamma = Ok NaN <-> batch = []) /\
  (avg_horizon batch = Ok NaN <-> batch = []).
Proof.
  intros Hb. unfold performance.
  rewrite (returns_of_four_fields batch gamma Hb), (avg_horizon_of_four_fields batch Hb).
  cbn [exc_bind]. split; split.
  - intros H. destruct batch as [|tr rest]; [reflexivity|]. exfalso.
    rewrite mean_all_nonempty in H by discriminate. discriminate.
  - intros ->. cbn [map]. rewrite mean_all_empty. reflexivity.
  - intros H. destruct batch as [|tr rest]; [reflexivity|]. exfalso.
    rewrite mean_all_nonempty in H by discriminate. discriminate.
  - intros ->. cbn [map]. rewrite mean_all_empty. reflexivity.
Qed.

(** X14: with mask entries between 0 and 1 and trajectories of at most H
    steps, the average horizon of a batch that is not empty is a number
    between 0 and H. *)
Theorem avg_horizon_is_within_the_horizon batch H :
  batch <> [] ->
  (forall tr, In tr batch ->
     arity tr = 4%nat /\ (List.length (mask tr) <= H)%nat /\
     Forall (fun m => 0 <= m <= 1) (mask tr)) ->
  exists h, avg_horizon batch = Ok (Fin h) /\ 0 <= h <= INR H.
Proof.
  intros Hne Hb.
  rewrite avg_horizon_of_four_fields by (intros tr Htr; apply (Hb tr Htr)).
  destruct (@mean_all_bounds 0 (INR H) (map (fun tr => sum_all (mask tr)) batch))
    as (h & Hh & Hbound).
  - destruct batch; [congruence|discriminate].
  - apply Forall_forall. intros v Hv. apply in_map_iff in Hv as (tr & <- & Htr).
    destruct (Hb tr Htr) as (_ & Hlen & Hm).
    pose proof (sum_all_bounds Hm) as [Hlo Hhi].
    apply le_INR in Hlen. lra.
  - exists h. rewrite Hh. split; [reflexivity|exact Hbound].
Qed.

(** ** The batches that [unpack] accepts *)

Lemma same_length_Forall {T : Type} n (xs : list (list T)) :
  same_length n xs = true <-> Forall (fun x => List.length x = n) xs.
Proof.
  induction xs as [|x xs IH]; cbn [same_length].
  - split; [constructor|reflexivity].
  - rewrite andb_true_iff, Nat.eqb_eq, IH. split.
    + intros [Hx Hxs]. constructor; assumption.
    + intros Hall. inversion Hall; subst. split; [reflexivity|assumption].
Qed.

Lemma stack_accepts {T : Type} (xs : list (list T)) :
  (exists r, stack xs = Ok r) <-> xs <> [] /\ uniform xs.
Proof.
  unfold stack, uniform. destruct xs as [|x rest].
  - split; [intros [r Hr]; discriminate|intros [Hne _]; congruence].
  - destruct (same_length (List.length x) rest) eqn:Hs.
    + split; [|eauto]. intros _. split; [discriminate|].
      exists (List.length x). constructor; [reflexivity|].
      apply same_length_Forall, Hs.
    + split; [intros [r Hr]; discriminate|]. intros [_ [n Hall]]. exfalso.
      inversion Hall as [|? ? Hx Hrest]; subst.
      apply same_length_Forall in Hrest. congruence.
Qed.

Lemma stack_uniform {T : Type} (xs : list (list T)) :
  xs <> [] -> uniform xs -> stack xs = Ok xs.
Proof.
  intros Hne Hu. destruct (proj2 (stack_accepts xs) (conj Hne Hu)) as [r Hr].
  rewrite Hr. f_equal. apply (stack_ok _ Hr).
Qed.

Lemma unpack_uniform batch b :
  unpack batch = Ok b ->
  uniform (map (@states _ _ _) batch) /\
  uniform (map (@actions _ _ _) batch) /\
  uniform (map (@rewards _ _ _) batch) /\
  uniform (map (@mask _ _ _) batch) /\
  uniform (map (fun tr : trajectory state action extra => nth 0 (extras tr) []) batch).
Proof.
  intros Hu. pose proof (unpack_arity _ Hu) as Ha.
  destruct batch as [|tr rest]; [discriminate|].
  unfold unpack in Hu. rewrite Ha in Hu.
  set (batch := tr :: rest) in *.
  destruct (stack (map (@states _ _ _) batch)) as [st|] eqn:Hst;
    [|cbn [exc_bind] in Hu; discriminate].
  destruct (stack (map (@actions _ _ _) batch)) as [ac|] eqn:Hac;
    [|cbn [exc_bind] in Hu; discriminate].
  destruct (stack (map (@rewards _ _ _) batch)) as [rw|] eqn:Hrw;
    [|cbn [exc_bind] in Hu; discriminate].
  destruct (stack (map (@mask _ _ _) batch)) as [mk|] eqn:Hmk;
    [|cbn [exc_bind] in Hu; discriminate].
  cbn [exc_bind Nat.ltb Nat.leb] in Hu.
  destruct (stack (map (fun tr0 : trajectory state action extra =>
                          nth 0 (extras tr0) []) batch)) as [ex|] eqn:Hex;
    [|cbn [exc_bind] in Hu; discriminate].
  repeat split;
    match goal with
    | H : stack ?xs = Ok _ |- uniform ?xs =>
        exact (proj2 (proj1 (stack_accepts xs) (ex_intro _ _ H)))
    end.
Qed.

Lemma uniform_unpack batch :
  batch <> [] -> zip_arity batch = 5%nat ->
  uniform (map (@states _ _ _) batch) ->
  uniform (map (@actions _ _ _) batch) ->
  uniform (map (@rewards _ _ _) batch) ->
  uniform (map (@mask _ _ _) batch) ->
  uniform (map (fun tr : trajectory state action extra => nth 0 (extras tr) []) batch) ->
  exists b, unpack batch = Ok b.
Proof.
  intros Hne Ha Ust Uac Urw Umk Uex.
  destruct batch as [|tr rest]; [congruence|]. unfold unpack. rewrite Ha.
  set (batch := tr :: rest) in *.
  rewrite (stack_uniform (xs := map (@states _ _ _) batch)) by (discriminate || exact Ust).
  rewrite (stack_uniform (xs := map (@actions _ _ _) batch)) by (discriminate || exact Uac).
  rewrite (stack_uniform (xs := map (@rewards _ _ _) batch)) by (discriminate || exact Urw).
  rewrite (stack_uniform (xs := map (@mask _ _ _) batch)) by (discriminate || exact Umk).
  cbn [exc_bind Nat.ltb Nat.leb].
  rewrite (stack_uniform
             (xs := map (fun tr0 : trajectory state action extra =>
                           nth 0 (extras tr0) []) batch))
    by (discriminate || exact Uex).
  cbn [exc_bind]. eexists. reflexivity.
Qed.

(** X18: what the estimator's [states, actions, rewards, mask, _ =
    unpack(batch)] requires of a batch.  Where it succeeds the batch is not
    empty, its shortest tuple has five fields, so every tuple has at least
    five (longer ones beside a five-field one are cut by [zip]), and each of
    the five fields has one length along the time axis over the batch: also
    the fifth, which is stacked although it is never used. *)
Theorem unpack_accepts_only_uniform_five_field_batches batch b :
  unpack batch = Ok b ->
  batch <> [] /\ zip_arity batch = 5%nat /\
  (forall tr, In tr batch -> (5 <= arity tr)%nat) /\
  uniform (map (@states _ _ _) batch) /\
  uniform (map (@actions _ _ _) batch) /\
  uniform (map (@rewards _ _ _) batch) /\
  uniform (map (@mask _ _ _) batch) /\
  uniform (map (fun tr : trajectory state action extra => nth 0 (extras tr) []) batch).
Proof.
  intros Hu. split; [destruct batch; [discriminate|discriminate]|].
  pose proof (unpack_arity _ Hu) as Ha. split; [exact Ha|]. split.
  - intros tr Htr. rewrite <- Ha. apply zip_arity_le, Htr.
  - exact (unpack_uniform _ Hu).
Qed.

End Coverage.

(** * Reordering the batch *)

Section Reordering.

Variables state action extra : Type.
Implicit Types (batch : list (trajectory state action extra)) (policy : Policy state action).

Lemma nth_map2 {T U V : Type} (h : T -> U -> V) a b n da db d :
  (n < List.length a)%nat -> (n < List.length b)%nat ->
  nth n (Torch.map2 h a b) d = h (nth n a da) (nth n b db).
Proof.
  revert b n. induction a as [|x a IH]; intros [|y b] [|n]; simpl; try lia.
  - reflexivity.
  - intros Ha Hb. apply IH; lia.
Qed.

Lemma nth_map_in {T U : Type} (g : T -> U) l n d d' :
  (n < List.length l)%nat -> nth n (map g l) d' = g (nth n l d).
Proof.
  revert n. induction l as [|x l IH]; intros [|n]; simpl; try lia.
  - reflexivity.
  - intros Hn. apply IH. lia.
Qed.

(** A row of the result of [over_steps] is the evaluation of the states and
    actions of that row. *)
Lemma over_steps_row {T : Type} (f : state -> action -> exc T) st ac st' ac' r r' n n' :
  over_steps f st ac = Ok r -> over_steps f st' ac' = Ok r' ->
  (n < List.length r)%nat -> (n' < List.length r')%nat ->
  nth_error st' n' = nth_error st n -> nth_error ac' n' = nth_error ac n ->
  nth n' r' [] = nth n r [].
Proof.
  intros Hr Hr' Hn Hn' Hst Hac. unfold over_steps in *.
  destruct (nth_error r n) as [row|] eqn:Hrow; [|apply nth_error_None in Hrow; lia].
  destruct (nth_error r' n') as [row'|] eqn:Hrow'; [|apply nth_error_None in Hrow'; lia].
  destruct (exc_map_nth_error _ _ _ Hr Hrow) as ([srow arow] & Hsa & Hmap).
  destruct (exc_map_nth_error _ _ _ Hr' Hrow') as ([srow' arow'] & Hsa' & Hmap').
  apply nth_error_combine in Hsa as [Hs Ha]. apply nth_error_combine in Hsa' as [Hs' Ha'].
  cbn [fst snd] in *.
  assert (srow' = srow) by congruence. assert (arow' = arow) by congruence. subst.
  rewrite (nth_error_nth _ _ [] Hrow), (nth_error_nth _ _ [] Hrow'). congruence.
Qed.

(** The rows of the locals of a run at the position of a trajectory depend
    on that trajectory alone. *)
Lemma rows_of_a_trajectory
  batch batch' disc policy target bk theta l l' theta1 theta2 n m :
  estimator_body batch disc policy target bk theta = (Ok l, theta1) ->
  estimator_body batch' disc policy target bk theta = (Ok l', theta2) ->
  (m < List.length batch)%nat -> (n < List.length batch')%nat ->
  nth_error batch' n = nth_error batch m ->
  horizon (l_mask l') = horizon (l_mask l) /\
  nth n (l_mask l') [] = nth m (l_mask l) [] /\
  nth n (l_disc_rewards l') [] = nth m (l_disc_rewards l) [] /\
  nth n (l_G l') [] = nth m (l_G l) [] /\
  nth n (l_log_iws l') [] = nth m (l_log_iws l) [] /\
  nth n (l_stabilizers l') 0 = nth m (l_stabilizers l) 0.
Proof.
  intros Hrun Hrun' Hm Hn Htr.
  destruct (estimator_body_tensors _ _ _ _ _ _ Hrun)
    as (_ & _ & Tmask & _ & Tsc & _ & Tb & Tt & Tli & Tstab).
  destruct (estimator_body_tensors _ _ _ _ _ _ Hrun')
    as (_ & _ & Tmask' & _ & Tsc' & _ & Tb' & Tt' & Tli' & Tstab').
  apply estimator_body_locals in Hrun
    as (b & Hu & _ & Hmask & Hdisc & Hs & Hb & Ht & HG & Hli & Hmax & _).
  apply estimator_body_locals in Hrun'
    as (b' & Hu' & _ & Hmask' & Hdisc' & Hs' & Hb' & Ht' & HG' & Hli' & Hmax' & _).
  rewrite (unpack_fields _ Hu) in *. rewrite (unpack_fields _ Hu') in *.
  cbn [st_states st_actions st_rewards st_mask] in *.
  destruct (nth_error batch m) as [tr|] eqn:Em; [|apply nth_error_None in Em; lia].
  assert (Emask : nth n (l_mask l') [] = nth m (l_mask l) []).
  { rewrite Hmask, Hmask'.
    rewrite (nth_error_nth _ _ [] (map_nth_error _ _ _ Htr)).
    rewrite (nth_error_nth _ _ [] (map_nth_error _ _ _ Em)). reflexivity. }
  assert (Est : nth_error (map (@states _ _ _) batch') n
                = nth_error (map (@states _ _ _) batch) m).
  { rewrite (map_nth_error _ _ _ Htr), (map_nth_error _ _ _ Em). reflexivity. }
  assert (Eac : nth_error (map (@actions _ _ _) batch') n
                = nth_error (map (@actions _ _ _) batch) m).
  { rewrite (map_nth_error _ _ _ Htr), (map_nth_error _ _ _ Em). reflexivity. }
  assert (Ls : List.length (l_scores l) = List.length batch) by apply Tsc.
  assert (Ls' : List.length (l_scores l') = List.length batch') by apply Tsc'.
  assert (Lb : List.length (l_behavioral_logps l) = List.length batch) by apply Tb.
  assert (Lb' : List.length (l_behavioral_logps l') = List.length batch') by apply Tb'.
  assert (Lt : List.length (l_target_logps l) = List.length batch) by apply Tt.
  assert (Lt' : List.length (l_target_logps l') = List.length batch') by apply Tt'.
  assert (Lm : List.length (l_mask l) = List.length batch) by apply Tmask.
  assert (Lm' : List.length (l_mask l') = List.length batch') by apply Tmask'.
  assert (Esc : nth n (l_scores l') [] = nth m (l_scores l) [])
    by (eapply over_steps_row; [exact Hs | exact Hs' | lia | lia | exact Est | exact Eac]).
  assert (Eb : nth n (l_behavioral_logps l') [] = nth m (l_behavioral_logps l) [])
    by (eapply over_steps_row; [exact Hb | exact Hb' | lia | lia | exact Est | exact Eac]).
  assert (Et : nth n (l_target_logps l') [] = nth m (l_target_logps l) [])
    by (eapply over_steps_row; [exact Ht | exact Ht' | lia | lia | exact Est | exact Eac]).
  assert (Eli : nth n (l_log_iws l') [] = nth m (l_log_iws l) []).
  { rewrite Hli, Hli'. unfold Torch.cumsum_1, Torch.sub.
    rewrite !(@nth_map_in _ _ Torch.cumsum_row _ _ [] [])
      by (rewrite map2_length; lia).
    rewrite !(@nth_map2 _ _ _ (Torch.map2 Rminus) _ _ _ [] [] []) by lia.
    rewrite Et, Eb. reflexivity. }
  split.
  { unfold horizon.
    assert (Hrow : forall N H f (x : list (list R)) i,
               tensor2 N H f x -> (i < N)%nat -> List.length (nth i x []) = H).
    { intros N H f x i Tx Hi.
      destruct (nth_error x i) as [row|] eqn:Ei;
        [|apply nth_error_None in Ei; destruct Tx as [Hl _]; lia].
      rewrite (nth_error_nth _ _ [] Ei). apply (proj2 Tx i row Ei). }
    pose proof (Hrow _ _ _ _ n Tmask' Hn) as H1.
    pose proof (Hrow _ _ _ _ m Tmask Hm) as H2.
    unfold horizon in H1, H2. congruence. }
  split; [exact Emask|]. split.
  { rewrite Hdisc, Hdisc'. unfold discount.
    rewrite !(@nth_map_in _ _ _ _ _ [] []) by (rewrite length_map; assumption).
    rewrite (nth_error_nth _ _ [] (map_nth_error _ _ _ Htr)).
    rewrite (nth_error_nth _ _ [] (map_nth_error _ _ _ Em)). reflexivity. }
  split.
  { rewrite HG, HG'. unfold Torch.cumsum_1_3d, tensormat.
    rewrite !(@nth_map_in _ _ Torch.vcumsum_row _ _ [] [])
      by (rewrite map2_length; lia).
    rewrite !(@nth_map2 _ _ _ _ _ _ _ [] [] []) by lia.
    rewrite Esc, Emask. reflexivity. }
  split; [exact Eli|].
  assert (Lst : List.length (l_stabilizers l) = List.length batch) by apply Tstab.
  assert (Lst' : List.length (l_stabilizers l') = List.length batch') by apply Tstab'.
  destruct (nth_error (l_stabilizers l) m) as [v|] eqn:Ev;
    [|apply nth_error_None in Ev; lia].
  destruct (nth_error (l_stabilizers l') n) as [v'|] eqn:Ev';
    [|apply nth_error_None in Ev'; lia].
  unfold Torch.max_1 in Hmax, Hmax'.
  destruct (exc_map_nth_error _ _ _ Hmax Ev) as (row & Hrow & Hv).
  destruct (exc_map_nth_error _ _ _ Hmax' Ev') as (row' & Hrow' & Hv').
  rewrite (nth_error_nth _ _ 0 Ev), (nth_error_nth _ _ 0 Ev').
  rewrite (nth_error_nth _ _ [] Hrow), (nth_error_nth _ _ [] Hrow') in Eli.
  subst row'. congruence.
Qed.

Lemma zip_arity_attained batch :
  batch <> [] -> exists tr, In tr batch /\ arity tr = zip_arity batch.
Proof.
  destruct batch as [|tr0 rest]; [congruence|]. intros _. unfold zip_arity.
  induction rest as [|x rest IH]; cbn [map fold_right].
  - exists tr0. split; [left; reflexivity|reflexivity].
  - destruct IH as (tr & Hin & Htr).
    destruct (Nat.min_dec (arity x) (fold_right Nat.min (arity tr0) (map (@arity _ _ _) rest)))
      as [E|E]; rewrite E.
    + exists x. split; [right; left; reflexivity | reflexivity].
    + exists tr. split; [|exact Htr].
      destruct Hin as [<-|Hin]; [left; reflexivity | right; right; exact Hin].
Qed.

Lemma zip_arity_Permutation batch batch' :
  Permutation batch batch' -> zip_arity batch' = zip_arity batch.
Proof.
  intros Hp. destruct batch as [|tr0 rest].
  - apply Permutation_nil in Hp. subst. reflexivity.
  - assert (Hne' : batch' <> []).
    { intros ->. apply Permutation_sym, Permutation_nil in Hp. discriminate. }
    destruct (@zip_arity_attained (tr0 :: rest)) as (a & Ha & Ea); [discriminate|].
    destruct (zip_arity_attained Hne') as (b & Hb & Eb).
    pose proof (@zip_arity_le _ _ _ batch' a (Permutation_in _ Hp Ha)).
    pose proof (@zip_arity_le _ _ _ (tr0 :: rest) b
                  (Permutation_in _ (Permutation_sym Hp) Hb)).
    lia.
Qed.

Lemma uniform_Permutation {T U : Type} (g : T -> list U) (l l' : list T) :
  Permutation l l' -> uniform (map g l) -> uniform (map g l').
Proof.
  intros Hp [n Hn]. exists n.
  eapply Permutation_Forall; [apply Permutation_map, Hp|exact Hn].
Qed.

Lemma exc_map_In_ok {T U : Type} (g : T -> exc U) l r x :
  exc_map g l = Ok r -> In x l -> exists y, g x = Ok y.
Proof.
  revert r. induction l as [|a l IH]; intros r Hr Hx; [destruct Hx|].
  cbn [exc_map] in Hr. destruct (g a) as [y|] eqn:Ea; cbn [exc_bind] in Hr; [|discriminate].
  destruct (exc_map g l) as [ys|]; cbn [exc_bind] in Hr; [|discriminate].
  destruct Hx as [<-|Hx]; [eauto|]. exact (IH ys eq_refl Hx).
Qed.

Lemma exc_map_ok_of_all {T U : Type} (g : T -> exc U) l :
  (forall x, In x l -> exists y, g x = Ok y) -> exists r, exc_map g l = Ok r.
Proof.
  induction l as [|a l IH]; intros Hall; cbn [exc_map]; [eauto|].
  destruct (Hall a (or_introl eq_refl)) as [y Hy]. rewrite Hy. cbn [exc_bind].
  destruct IH as [ys Hys]; [intros x Hx; apply Hall; right; exact Hx|].
  rewrite Hys. cbn [exc_bind]. eauto.
Qed.

Lemma over_steps_batch {T : Type} (f : state -> action -> exc T) batch :
  over_steps f (map (@states _ _ _) batch) (map (@actions _ _ _) batch)
  = exc_map (fun tr : trajectory state action extra =>
               exc_map (fun p => f (fst p) (snd p)) (combine (states tr) (actions tr)))
            batch.
Proof.
  unfold over_steps. induction batch as [|tr rest IH]; [reflexivity|].
  cbn [map combine exc_map fst snd]. rewrite IH. reflexivity.
Qed.

Lemma over_steps_Permutation {T : Type} (f : state -> action -> exc T) batch batch' r :
  Permutation batch batch' ->
  over_steps f (map (@states _ _ _) batch) (map (@actions _ _ _) batch) = Ok r ->
  exists r',
    over_steps f (map (@states _ _ _) batch') (map (@actions _ _ _) batch') = Ok r'.
Proof.
  intros Hp Hr. rewrite over_steps_batch in Hr. rewrite over_steps_batch.
  match type of Hr with
  | exc_map ?g _ = _ =>
      apply (@exc_map_ok_of_all _ _ g batch'); intros x Hx;
      apply (@exc_map_In_ok _ _ g batch r x Hr)
  end.
  exact (Permutation_in _ (Permutation_sym Hp) Hx).
Qed.

Lemma max_1_ok N H f x :
  tensor2 N H f x -> (1 <= H)%nat -> exists s, Torch.max_1 x = Ok s.
Proof.
  intros Tx HH. unfold Torch.max_1. apply exc_map_ok_of_all. intros row Hrow.
  apply In_nth_error in Hrow as [n Hn]. pose proof (proj2 Tx n row Hn) as [Hlen _].
  destruct row as [|v row]; [simpl in Hlen; lia|]. cbn [Torch.max_row]. eauto.
Qed.

(** The reordered batch is unpacked as well, with the same horizon. *)
Lemma unpack_Permutation batch batch' b :
  Permutation batch batch' -> unpack batch = Ok b -> check_shapes b = Ok tt ->
  exists b', unpack batch' = Ok b' /\ check_shapes b' = Ok tt.
Proof.
  intros Hp Hu Hc.
  assert (Hne : batch <> []) by (destruct batch; [discriminate|congruence]).
  assert (Hne' : batch' <> []).
  { intros ->. apply Permutation_sym, Permutation_nil in Hp. congruence. }
  destruct (unpack_uniform _ Hu) as (Ust & Uac & Urw & Umk & Uex).
  destruct (@uniform_unpack _ _ _ batch') as [b' Hu'];
    [exact Hne'
    |rewrite (zip_arity_Permutation Hp); exact (unpack_arity _ Hu)
    |exact (uniform_Permutation _ Hp Ust) | exact (uniform_Permutation _ Hp Uac)
    |exact (uniform_Permutation _ Hp Urw) | exact (uniform_Permutation _ Hp Umk)
    |exact (uniform_Permutation _ Hp Uex) |].
  exists b'. split; [exact Hu'|].
  destruct (unpack_shapes _ Hu Hc)
    as (N & H & HN & HNb & Est & Eac & Erw & Emk & Sst & Sac & Srw & Smk).
  rewrite (unpack_fields _ Hu'). unfold check_shapes.
  cbn [st_states st_actions st_rewards st_mask].
  destruct batch' as [|tr' rest']; [congruence|].
  assert (Hin : In tr' batch)
    by (apply (Permutation_in _ (Permutation_sym Hp)); left; reflexivity).
  apply In_nth_error in Hin as [i Hi].
  unfold horizon. cbn [map hd].
  rewrite Est in Sst. rewrite Eac in Sac. rewrite Erw in Srw. rewrite Emk in Smk.
  rewrite (proj2 Sst i _ (map_nth_error _ _ _ Hi)).
  rewrite (proj2 Sac i _ (map_nth_error _ _ _ Hi)).
  rewrite (proj2 Srw i _ (map_nth_error _ _ _ Hi)).
  rewrite (proj2 Smk i _ (map_nth_error _ _ _ Hi)).
  rewrite Nat.eqb_refl. reflexivity.
Qed.

(** A run on the reordered batch succeeds where the run on the batch does. *)
Lemma estimator_body_Permutation batch batch' disc policy target bk theta l theta1 :
  Permutation batch batch' ->
  estimator_body batch disc policy target bk theta = (Ok l, theta1) ->
  exists l', estimator_body batch' disc policy target bk theta = (Ok l', theta).
Proof.
  intros Hp Hrun.
  destruct (estimator_body_tensors _ _ _ _ _ _ Hrun) as (_ & HH & Tmask & _).
  apply estimator_body_locals in Hrun
    as (b & Hu & Hc & Hmask & _ & Hs & Hb & Ht & _ & _ & _ & _ & _ & _ & _ & Hkind).
  destruct (unpack_Permutation Hp Hu Hc) as (b' & Hu' & Hc').
  rewrite (unpack_fields _ Hu) in Hs, Hb, Ht, Hmask.
  cbn [st_states st_actions st_mask] in Hs, Hb, Ht, Hmask.
  destruct (over_steps_Permutation _ Hp Hs) as [sc' Hs'].
  destruct (over_steps_Permutation _ Hp Hb) as [blp' Hb'].
  destruct (over_steps_Permutation _ Hp Ht) as [tlp' Ht'].
  destruct (unpack_shapes _ Hu' Hc')
    as (N' & H' & HN' & HNb' & Est' & Eac' & _ & Emk' & Sst' & Sac' & _ & Smk').
  assert (HH' : (1 <= H')%nat).
  { assert (Hne' : batch' <> []) by (destruct batch'; [discriminate|congruence]).
    destruct batch' as [|tr' rest']; [congruence|].
    assert (Hin : In tr' batch)
      by (apply (Permutation_in _ (Permutation_sym Hp)); left; reflexivity).
    apply In_nth_error in Hin as [i Hi].
    rewrite Emk' in Smk'.
    pose proof (proj2 Smk' 0%nat (mask tr') eq_refl) as Hlen. cbv beta in Hlen.
    pose proof (proj2 Tmask i _ (eq_trans (f_equal (fun x => nth_error x i) Hmask)
                                          (map_nth_error _ _ _ Hi))) as [Hlen2 _].
    lia. }
  rewrite Est' in Sst'. rewrite Eac' in Sac'.
  pose proof (shape_tensor2 (over_steps_shape _ Sst' Sac' Hb')) as Tb'.
  pose proof (shape_tensor2 (over_steps_shape _ Sst' Sac' Ht')) as Tt'.
  destruct (max_1_ok (log_iws_entries Tt' Tb') HH') as [stab' Hmax'].
  unfold estimator_body, bind, lift, score, log_pdf, get_flat, set_from_flat, ret, raise.
  rewrite Hu', Hc'. rewrite (unpack_fields _ Hu').
  cbn [st_states st_actions st_rewards st_mask].
  rewrite Hs', Hb', Ht', Hmax'.
  destruct Hkind as [Hk|Hk].
  - rewrite Hk. eexists. reflexivity.
  - destruct (bk =? "peters"); [eexists; reflexivity|].
    rewrite Hk. eexists. reflexivity.
Qed.

(** With the zero baseline, the row of a trajectory in the per-trajectory
    result is the same in two batches that hold it. *)
Lemma zero_baseline_row
  batch batch' disc policy target theta l l' theta1 theta2 n m :
  estimator_body batch disc policy target "zero" theta = (Ok l, theta1) ->
  estimator_body batch' disc policy target "zero" theta = (Ok l', theta2) ->
  (m < List.length batch)%nat -> (n < List.length batch')%nat ->
  nth_error batch' n = nth_error batch m ->
  nth n (l_samples l') [] = nth m (l_samples l) [].
Proof.
  intros Hrun Hrun' Hm Hn Htr.
  destruct (@rows_of_a_trajectory batch batch' disc policy target "zero" theta l l' theta1
              theta2 n m Hrun Hrun' Hm Hn Htr) as (HH & Em & Ed & EG & El & _).
  pose proof (samples_tensor _ _ _ _ _ _ Hrun) as Ts.
  pose proof (samples_tensor _ _ _ _ _ _ Hrun') as Ts'.
  destruct (nth_error (l_samples l) m) as [row|] eqn:Hrow;
    [|apply nth_error_None in Hrow; destruct Ts as [Hl _]; lia].
  destruct (nth_error (l_samples l') n) as [row'|] eqn:Hrow';
    [|apply nth_error_None in Hrow'; destruct Ts' as [Hl _]; lia].
  rewrite (nth_error_nth _ _ [] Hrow), (nth_error_nth _ _ [] Hrow').
  pose proof (proj2 Ts m row Hrow) as Trow. pose proof (proj2 Ts' n row' Hrow') as Trow'.
  cbv beta in Trow, Trow'.
  eapply tensor1_eq; [|exact Trow]. eapply tensor1_fun; [exact Trow'|].
  intros k _. cbv beta. f_equal. unfold sample_entry. rewrite HH.
  apply big_sum_ext. intros t _. unfold baseline_entry. cbn [String.eqb Ascii.eqb Bool.eqb].
  unfold entry2, entry3. rewrite Em, Ed, EG, El. reflexivity.
Qed.

(** X19: with the zero baseline the order of the trajectories does not matter
    to the per-trajectory result.  On a reordering of a batch on which the
    call succeeds, the call succeeds, and the row of every trajectory is the
    row it had in the batch. *)
Theorem zero_baseline_samples_follow_a_reordering
  batch batch' disc policy target theta l theta1 :
  Permutation batch batch' ->
  estimator_body batch disc policy target "zero" theta = (Ok l, theta1) ->
  exists l',
    estimator_body batch' disc policy target "zero" theta = (Ok l', theta) /\
    List.length (l_samples l') = List.length (l_samples l) /\
    forall n m, (m < List.length batch)%nat ->
      nth_error batch' n = nth_error batch m ->
      nth n (l_samples l') [] = nth m (l_samples l) [].
Proof.
  intros Hp Hrun.
  destruct (@estimator_body_Permutation batch batch' disc policy target "zero" theta l
              theta1 Hp Hrun) as [l' Hrun']. exists l'.
  split; [exact Hrun'|].
  pose proof (samples_tensor _ _ _ _ _ _ Hrun) as [Ls _].
  pose proof (samples_tensor _ _ _ _ _ _ Hrun') as [Ls' _].
  split; [rewrite Ls, Ls'; symmetry; apply Permutation_length, Hp|].
  intros n m Hm Htr.
  apply (@zero_baseline_row batch batch' disc policy target theta l l' theta1 theta n m
           Hrun Hrun' Hm); [|exact Htr].
  apply nth_error_Some. rewrite Htr. apply nth_error_Some. exact Hm.
Qed.

(** X20: with the zero baseline the trajectories do not interact: the row of
    the per-trajectory result at the position of a trajectory is the result
    of the call on the batch of that trajectory alone, whenever that call
    returns. *)
Theorem zero_baseline_samples_are_independent
  batch disc policy target theta l theta1 l1 theta2 m tr :
  estimator_body batch disc policy target "zero" theta = (Ok l, theta1) ->
  nth_error batch m = Some tr ->
  estimator_body [tr] disc policy target "zero" theta = (Ok l1, theta2) ->
  l_samples l1 = [nth m (l_samples l) []].
Proof.
  intros Hrun Htr Hrun1.
  assert (Hm : (m < List.length batch)%nat) by (apply nth_error_Some; congruence).
  destruct (@rows_of_a_trajectory batch [tr] disc policy target "zero" theta l l1 theta1
              theta2 0%nat m Hrun Hrun1 Hm)
    as (HH & Em & Ed & EG & El & _); [simpl; lia | rewrite Htr; reflexivity |].
  pose proof (samples_tensor _ _ _ _ _ _ Hrun) as Ts.
  pose proof (samples_tensor _ _ _ _ _ _ Hrun1) as Ts1.
  cbn [List.length] in Ts1.
  destruct (nth_error (l_samples l) m) as [row|] eqn:Hrow;
    [|apply nth_error_None in Hrow; destruct Ts as [Hl _]; lia].
  rewrite (nth_error_nth _ _ [] Hrow).
  pose proof (proj2 Ts m row Hrow) as Trow. cbv beta in Trow.
  destruct Ts1 as [Hl1 Hrows1].
  destruct (l_samples l1) as [|row1 [|row2 rest]]; simpl in Hl1; try lia.
  f_equal. pose proof (Hrows1 0%nat row1 eq_refl) as Trow1. cbv beta in Trow1.
  eapply tensor1_eq; [|exact Trow]. eapply tensor1_fun; [exact Trow1|].
  intros k _. cbv beta. f_equal. unfold sample_entry. rewrite HH.
  apply big_sum_ext. intros t _. unfold baseline_entry. cbn [String.eqb Ascii.eqb Bool.eqb].
  unfold entry2, entry3. rewrite Em, Ed, EG, El. reflexivity.
Qed.

End Reordering.

(** * The action filter *)

Section ActionFilter.

(** X21: the action filter keeps the shape of the action and never exceeds
    the upper bounds; where the lower bounds are below the upper bounds it
    maps every action into the box, it changes no action that is in the box,
    and filtering twice is filtering once. *)
Theorem clip_keeps_actions_in_the_box low high a :
  List.length low = List.length a -> List.length high = List.length a ->
  List.length (clip low high a) = List.length a /\
  Forall2 Rle (clip low high a) high /\
  (Forall2 Rle low high ->
   Forall2 Rle low (clip low high a) /\
   clip low high (clip low high a) = clip low high a /\
   (Forall2 Rle low a -> Forall2 Rle a high -> clip low high a = a)).
Proof.
  revert low high. induction a as [|x a IH]; intros [|lo low] [|hi high] Hl Hh;
    try discriminate.
  - cbn [clip]. repeat split; try constructor; reflexivity.
  - injection Hl as Hl. injection Hh as Hh.
    destruct (IH low high Hl Hh) as (Hlen & Hup & Hbox). cbn [clip].
    split; [cbn [List.length]; rewrite Hlen; reflexivity|].
    split; [constructor; [apply Rmin_r|exact Hup]|].
    intros Hlh. inversion Hlh as [|? ? ? ? Hle Hrest]; subst.
    destruct (Hbox Hrest) as (Hlow & Hidem & Hid).
    assert (Hin : lo <= Rmin (Rmax x lo) hi <= hi).
    { split; [apply Rmin_glb; [apply Rmax_r|exact Hle]|apply Rmin_r]. }
    split; [constructor; [apply Hin|exact Hlow]|]. split.
    + cbn [clip]. rewrite Hidem. f_equal.
      rewrite (Rmax_left (Rmin (Rmax x lo) hi) lo) by apply Hin.
      apply Rmin_left, Hin.
    + intros Hla Hah. inversion Hla; inversion Hah; subst.
      rewrite Hid by assumption. f_equal.
      rewrite Rmax_left by assumption. apply Rmin_left. assumption.
Qed.

End ActionFilter.

(** * The scripts *)

Section Scripts.

Lemma split_nonempty sep s : split sep s <> [].
Proof.
  destruct s as [|c rest]; cbn [split]; [discriminate|].
  destruct (Ascii.eqb c sep); [discriminate|]. destruct (split sep rest); discriminate.
Qed.

Lemma split_without sep s : occurs sep s = false -> split sep s = [s].
Proof.
  induction s as [|c rest IH]; cbn [split occurs]; [reflexivity|].
  intros H. apply orb_false_elim in H as [Hc Hrest]. rewrite Hc, (IH Hrest). reflexivity.
Qed.

Lemma split_at_first sep pre rest :
  occurs sep pre = false ->
  split sep (pre ++ String sep rest)%string = pre :: split sep rest.
Proof.
  induction pre as [|c pre IH]; cbn [split occurs String.append].
  - intros _. rewrite Ascii.eqb_refl. reflexivity.
  - intros H. apply orb_false_elim in H as [Hc Hpre]. rewrite Hc, (IH Hpre). reflexivity.
Qed.

Lemma join_split sep s : join (String sep EmptyString) (split sep s) = s.
Proof.
  induction s as [|c rest IH]; cbn [split]; [reflexivity|].
  destruct (Ascii.eqb_spec c sep) as [->|_].
  - pose proof (split_nonempty sep rest) as Hne.
    destruct (split sep rest) as [|w ws] eqn:E; [congruence|].
    change (join (String sep EmptyString) (EmptyString :: w :: ws))
      with (String sep (join (String sep EmptyString) (w :: ws))).
    rewrite IH. reflexivity.
  - destruct (split sep rest) as [|w ws] eqn:E; [exfalso; exact (@split_nonempty sep rest E)|].
    rewrite <- IH. destruct ws as [|w' ws]; reflexivity.
Qed.

Lemma occurs_in_piece c sep s l :
  occurs c s = false -> In l (split sep s) -> occurs c l = false.
Proof.
  revert l. induction s as [|d rest IH]; intros l Hs Hl; cbn [split occurs] in *.
  - destruct Hl as [<-|[]]. reflexivity.
  - apply orb_false_elim in Hs as [Hd Hrest].
    destruct (Ascii.eqb d sep).
    + destruct Hl as [<-|Hl]; [reflexivity|]. apply IH; assumption.
    + destruct (split sep rest) as [|w ws] eqn:E.
      * destruct Hl as [<-|[]]. cbn [occurs]. rewrite Hd. reflexivity.
      * destruct Hl as [<-|Hl].
        -- cbn [occurs]. rewrite Hd. apply IH; [exact Hrest|left; reflexivity].
        -- apply IH; [exact Hrest|right; exact Hl].
Qed.

(** X15: the name of a screen is read back from its line of [screen -ls]:
    on a line made of a prefix without a dot (the tab and the process id), a
    dot, a name without a tab and the tab-separated rest, [screen_name] is
    the name, dots inside the name included. *)
Theorem screen_name_of_a_listing_line pre name rest :
  occurs dot pre = false -> occurs tab name = false ->
  screen_name (pre ++ String dot (name ++ String tab rest))%string = name.
Proof.
  intros Hpre Hname. unfold screen_name.
  rewrite (@split_at_first dot pre _ Hpre). cbn [tl]. rewrite join_split.
  rewrite (@split_at_first tab name _ Hname). reflexivity.
Qed.

(** X16: [list_screens] never returns the empty list, and when the output of
    the shell command holds no dot (no session is listed, the output is empty)
    it returns screens with the empty name, one for each line. *)
Theorem list_screens_without_sessions output :
  list_screens output <> [] /\
  (occurs dot output = false ->
   Forall (fun name => name = EmptyString) (list_screens output)).
Proof.
  unfold list_screens. split.
  - pose proof (split_nonempty newline output). destruct (split newline output);
      [congruence|discriminate].
  - intros Hdot. apply Forall_forall. intros name Hname.
    apply in_map_iff in Hname as (l & <- & Hl).
    pose proof (@occurs_in_piece dot newline output l Hdot Hl) as Hnone.
    unfold screen_name. rewrite (@split_without dot l Hnone). reflexivity.
Qed.

Lemma sub_non_letters_app a b :
  sub_non_letters (a ++ b)%string = (sub_non_letters a ++ sub_non_letters b)%string.
Proof.
  induction a as [|c a IH]; cbn [sub_non_letters String.append]; [reflexivity|].
  destruct (is_letter c); cbn [String.append]; rewrite IH; reflexivity.
Qed.

Lemma sub_non_letters_letters s : all_letters s = true -> sub_non_letters s = s.
Proof.
  induction s as [|c s IH]; cbn [all_letters sub_non_letters]; [reflexivity|].
  intros H. apply andb_prop in H as [Hc Hs]. rewrite Hc, (IH Hs). reflexivity.
Qed.

Lemma sub_non_letters_none s : no_letters s = true -> sub_non_letters s = EmptyString.
Proof.
  induction s as [|c s IH]; cbn [no_letters sub_non_letters]; [reflexivity|].
  intros H. apply andb_prop in H as [Hc Hs]. apply negb_true_iff in Hc.
  rewrite Hc. exact (IH Hs).
Qed.

Lemma drop_last_snoc s c : drop_last (s ++ String c EmptyString)%string = s.
Proof.
  induction s as [|d s IH]; [reflexivity|].
  cbn [String.append].
  assert (Hne : exists a r, (s ++ String c EmptyString)%string = String a r)
    by (destruct s; cbn [String.append]; eauto).
  destruct Hne as (a & r & E). rewrite E.
  change (drop_last (String d (String a r))) with (String d (drop_last (String a r))).
  rewrite <- E, IH. reflexivity.
Qed.

(** X17: for a Gym environment id of the form name, "-v", version, with a
    name of letters only and a version without letters, [envname] is the name
    in lower case: the slice [:-1] removes the "v" that the substitution
    leaves at the end. *)
Theorem envname_of_a_versioned_id name version :
  all_letters name = true -> no_letters version = true ->
  envname (name ++ "-v" ++ version)%string = lower name.
Proof.
  intros Hname Hver. unfold envname.
  rewrite !sub_non_letters_app, (@sub_non_letters_letters name Hname),
    (@sub_non_letters_none version Hver).
  change (sub_non_letters "-v") with "v".
  change ("v" ++ EmptyString)%string with "v".
  rewrite drop_last_snoc. reflexivity.
Qed.

End Scripts.

(** * The further properties on concrete batches *)

Module CoverageRuns.
Import Examples Batches.

(** The first trajectory of [masked_batch]. *)
Lemma fully_masked_trajectory_has_zero_sample_witness :
  exists l,
    estimator_body masked_batch 1 linear_policy [0] "zero" [0] = (Ok l, [0]) /\
    fentry2 (l_samples l) 0 0 = Some (Fin 0) /\
    forall t, (t < horizon (l_mask l))%nat ->
      fmul (Fin (entry2 (l_mask l) 0 t)) (exp32 (entry2 (l_log_iws l) 0 t)) = Fin 0.
Proof.
  eexists. split; [cbn; reflexivity|].
  apply (@fully_masked_trajectory_has_zero_sample R R R masked_batch 1 linear_policy
           [0] [0] _ [0] 0%nat
           (Build_trajectory [0; 0] [1; 1] [1; 1] [0; 0] [[0; 0]]) 0%nat).
  - cbn. reflexivity.
  - reflexivity.
  - repeat constructor.
  - intros t Ht. apply exp32_finite. cbn in Ht. unfold entry2. cbn [l_log_iws nth].
    destruct t as [|[|t]]; [cbn [nth]; lra | cbn [nth]; lra | lia].
  - cbn. lia.
Defined.


(** The scenario is accepted. *)
Lemma unpack_accepts_only_uniform_five_field_batches_witness :
  scenario <> [] /\ zip_arity scenario = 5%nat /\
  (forall tr, In tr scenario -> (5 <= arity tr)%nat) /\
  uniform (map (@states R R R) scenario) /\
  uniform (map (@actions R R R) scenario) /\
  uniform (map (@rewards R R R) scenario) /\
  uniform (map (@mask R R R) scenario) /\
  uniform (map (fun tr : trajectory R R R => nth 0 (extras tr) []) scenario).
Proof.
  apply (@unpack_accepts_only_uniform_five_field_batches R R R scenario
           {| st_states := [[0; 0]]; st_actions := [[1; 1]];
              st_rewards := [[1; 1]]; st_mask := [[1; 1]] |}).
  reflexivity.
Defined.

(** The first trajectory of [ragged_batch] is masked at its second step. *)
Lemma cumulative_score_is_constant_on_masked_steps_witness :
  exists l,
    estimator_body ragged_batch 1 linear_policy [0] "zero" [0] = (Ok l, [0]) /\
    entry3 (l_G l) 0 1 0 = entry3 (l_G l) 0 0 0.
Proof.
  eexists. split; [cbn; reflexivity|].
  apply (@cumulative_score_is_constant_on_masked_steps R R R ragged_batch 1 linear_policy
           [0] "zero" [0] _ [0] 0%nat 0%nat 0%nat).
  - cbn. reflexivity.
  - cbn. lia.
  - cbn. lia.
  - cbn. lia.
  - cbn. reflexivity.
Defined.

(** The scenario is a batch of the estimator. *)
Lemma estimator_batches_are_refused_by_the_statistics_witness :
  returns scenario (1 / 2) = Raise ValueError /\
  performance scenario (1 / 2) = Raise ValueError /\
  avg_horizon scenario = Raise ValueError.
Proof.
  apply (@estimator_batches_are_refused_by_the_statistics R R R scenario
           {| st_states := [[0; 0]]; st_actions := [[1; 1]];
              st_rewards := [[1; 1]]; st_mask := [[1; 1]] |} (1 / 2)).
  reflexivity.
Defined.

Lemma undiscounted_and_myopic_returns_witness :
  returns episodes 1 = Ok (map (fun tr => sum_all (rewards tr)) episodes) /\
  returns episodes 0 = Ok (map (fun tr => hd 0 (rewards tr)) episodes).
Proof.
  apply (@undiscounted_and_myopic_returns R R R episodes).
  intros tr [<-|[<-|[]]]; reflexivity.
Defined.

Lemma statistics_are_nan_exactly_on_the_empty_batch_witness :
  (performance episodes (1 / 2) = Ok NaN <-> episodes = []) /\
  (avg_horizon episodes = Ok NaN <-> episodes = []).
Proof.
  apply (@statistics_are_nan_exactly_on_the_empty_batch R R R episodes (1 / 2)).
  intros tr [<-|[<-|[]]]; reflexivity.
Defined.

Lemma avg_horizon_is_within_the_horizon_witness :
  exists h, avg_horizon episodes = Ok (Fin h) /\ 0 <= h <= INR 2.
Proof.
  apply (@avg_horizon_is_within_the_horizon R R R episodes 2).
  - discriminate.
  - intros tr [<-|[<-|[]]]; (split; [reflexivity|]); (split; [cbn; lia|]);
      cbn [mask]; repeat constructor; lra.
Defined.

(** The line of the sample output in the source. *)
Lemma screen_name_of_a_listing_line_witness :
  screen_name (String tab "28062" ++ String dot ("G.Terminal" ++ String tab "(Detached)"))%string
  = "G.Terminal".
Proof.
  apply (@screen_name_of_a_listing_line (String tab "28062") "G.Terminal" "(Detached)");
    reflexivity.
Defined.

(** The default environment id of the script. *)
Lemma envname_of_a_versioned_id_witness :
  envname ("ContCartPole" ++ "-v" ++ "0")%string = lower "ContCartPole".
Proof.
  apply (@envname_of_a_versioned_id "ContCartPole" "0"); reflexivity.
Defined.

(** [ragged_batch] and its reversal. *)
Lemma zero_baseline_samples_follow_a_reordering_witness :
  exists l,
    estimator_body ragged_batch 1 linear_policy [0] "zero" [0] = (Ok l, [0]) /\
    exists l',
      estimator_body (rev ragged_batch) 1 linear_policy [0] "zero" [0] = (Ok l', [0]) /\
      List.length (l_samples l') = List.length (l_samples l) /\
      forall n m, (m < List.length ragged_batch)%nat ->
        nth_error (rev ragged_batch) n = nth_error ragged_batch m ->
        nth n (l_samples l') [] = nth m (l_samples l) [].
Proof.
  eexists. split; [cbn; reflexivity|].
  apply (@zero_baseline_samples_follow_a_reordering R R R ragged_batch (rev ragged_batch) 1
           linear_policy [0] [0] _ [0]).
  - apply Permutation_rev.
  - cbn. reflexivity.
Defined.

(** The second trajectory of [ragged_batch], in the batch and alone. *)
Lemma zero_baseline_samples_are_independent_witness :
  exists l l1,
    estimator_body ragged_batch 1 linear_policy [0] "zero" [0] = (Ok l, [0]) /\
    estimator_body [Build_trajectory [0; 0] [1; 1] [0; 1] [1; 1] [[0; 0]]] 1 linear_policy
      [0] "zero" [0] = (Ok l1, [0]) /\
    l_samples l1 = [nth 1 (l_samples l) []].
Proof.
  eexists. eexists. split; [cbn; reflexivity|]. split; [cbn; reflexivity|].
  apply (@zero_baseline_samples_are_independent R R R ragged_batch 1 linear_policy [0] [0]
           _ [0] _ [0] 1%nat (Build_trajectory [0; 0] [1; 1] [0; 1] [1; 1] [[0; 0]])).
  - cbn. reflexivity.
  - reflexivity.
  - cbn. reflexivity.
Defined.

(** An action above the box in its first entry and inside it in the second. *)
Lemma clip_keeps_actions_in_the_box_witness :
  List.length (clip [-1; -1] [1; 1] [3; 0]) = 2%nat /\
  Forall2 Rle (clip [-1; -1] [1; 1] [3; 0]) [1; 1] /\
  (Forall2 Rle [-1; -1] [1; 1] ->
   Forall2 Rle [-1; -1] (clip [-1; -1] [1; 1] [3; 0]) /\
   clip [-1; -1] [1; 1] (clip [-1; -1] [1; 1] [3; 0]) = clip [-1; -1] [1; 1] [3; 0] /\
   (Forall2 Rle [-1; -1] [3; 0] -> Forall2 Rle [3; 0] [1; 1] ->
    clip [-1; -1] [1; 1] [3; 0] = [3; 0])).
Proof.
  apply (@clip_keeps_actions_in_the_box [-1; -1] [1; 1] [3; 0]); reflexivity.
Defined.

End CoverageRuns.
